(** * Covariance / correlation and conditional-probability notebooks

    A shallow embedding of the two notebooks of the repository:

    - [CovarianceCorrelation.py]: [de_mean], [covariance], [correlation]
      (with the library calls [mean], [dot] and [ndarray.std] they rely on);
    - the conditional-probability exercise: the generation loop filling
      [totals], [purchases] and [totalPurchases], and the derived
      probabilities [PEF], [PF], [PE].

    The numeric code is written once, over an interface [Arith] of the
    arithmetic operations the notebooks use, and is then read at three
    instances: exact real arithmetic, real arithmetic in which every
    operation is followed by a rounding operator (the standard model of
    floating-point arithmetic), and IEEE 754 binary64, which computes. *)

From Stdlib Require Import ZArith List Reals Lra Lia Floats.SpecFloat.
From stdpp Require Import gmap.
Import ListNotations.

(** ** Faults and the result monad *)

(** The run-time faults the notebooks can meet. *)
Inductive fault : Type :=
  | ZeroDivisionError
  | KeyError (k : Z)
  | ValueError.

Inductive result (A : Type) : Type :=
  | Ok (a : A)
  | Raise (e : fault).

Arguments Ok {A} a.
Arguments Raise {A} e.

#[export] Instance result_ret : MRet result := fun A a => Ok a.

#[export] Instance result_bind : MBind result :=
  fun A B k r => match r with Ok a => k a | Raise e => Raise e end.

(** ** The arithmetic interface

    A division whose divisor is zero is recorded as the fault
    [ZeroDivisionError].  Python's own floats raise it (Procedure A).
    numpy's scalars signal it with a warning and go on with an infinity or
    a NaN (Procedure B): there the fault stands for that non-finite value.
    A value numpy has computed but not yet used stops nothing, so in
    Procedure B a computed scalar is kept as a [result] and bound where
    the source reads it: the NaN mean of an empty sequence is never read
    by [de_mean], and the NaN standard deviations of [correlation] are
    read only after [covariance] has returned or raised. *)

Class Arith (T : Type) : Type := {
  of_int : Z -> T;              (* float(k), and int operands of a float operation *)
  fadd : T -> T -> T;
  fsub : T -> T -> T;
  fmul : T -> T -> T;
  fdiv : T -> T -> result T;    (* a zero divisor is recorded as a fault *)
  fsqrt : T -> T;
  flt : T -> T -> bool;         (* a < b *)
  ldexp : Z -> Z -> T           (* ldexp m e = m * 2^e *)
}.

(** ** Procedure B: covariance and correlation *)

Section ProcedureB.
Context {T : Type} `{Arith T}.

(** [sum]: accumulation from zero, left to right. *)
Definition sum (x : list T) : T := fold_left fadd x (of_int 0%Z).

(** [mean(x)]: the sum of the elements over their number; of an empty
    sequence, the non-finite value of [0 / 0]. *)
Definition mean (x : list T) : result T :=
  fdiv (sum x) (of_int (Z.of_nat (length x))).

(** [dot(a, b)] of two one-dimensional sequences; sequences of different
    lengths are refused. *)
Definition dot (a b : list T) : result T :=
  if decide (length a = length b)
  then Ok (fold_left (fun acc p => fadd acc (fmul (fst p) (snd p)))
                     (combine a b) (of_int 0%Z))
  else Raise ValueError.

(** <<
    def de_mean(x):
        xmean = mean(x)
        return [xi - xmean for xi in x]
    >> *)
Definition de_mean (x : list T) : result (list T) :=
  let xmean := mean x in
  mapM (fun xi => m ← xmean; Ok (fsub xi m)) x.

(** <<
    def covariance(x, y):
        n = len(x)
        return dot(de_mean(x), de_mean(y)) / (n-1)
    >> *)
Definition covariance (x y : list T) : result T :=
  let n := Z.of_nat (length x) in
  dx ← de_mean x;
  dy ← de_mean y;
  d ← dot dx dy;
  fdiv d (of_int (n - 1)%Z).

(** [x.std()] with its default [ddof = 0]: the square root of the mean of
    the squared deviations from the mean (the population standard
    deviation, divisor [n]). *)
Definition std (x : list T) : result T :=
  m ← mean x;
  let dev := map (fun xi => fsub xi m) x in
  v ← mean (map (fun d => fmul d d) dev);
  Ok (fsqrt v).

(** <<
    def correlation(x, y):
        stddevx = x.std()
        stddevy = y.std()
        return covariance(x,y) / stddevx / stddevy
    >> *)
Definition correlation (x y : list T) : result T :=
  let stddevx := std x in
  let stddevy := std y in
  c ← covariance x y;
  sx ← stddevx;
  q ← fdiv c sx;
  sy ← stddevy;
  fdiv q sy.

End ProcedureB.

(** ** Exact real arithmetic *)

Definition Rdiv_checked (a b : R) : result R :=
  if Req_dec_T b 0 then Raise ZeroDivisionError else Ok (a / b)%R.

#[export] Instance exact : Arith R := {|
  of_int := IZR;
  fadd := Rplus;
  fsub := Rminus;
  fmul := Rmult;
  fdiv := Rdiv_checked;
  fsqrt := sqrt;
  flt := fun a b => if Rlt_dec a b then true else false;
  ldexp := fun m e => (IZR m * powerRZ 2 e)%R
|}.

(** ** Real arithmetic with a rounding after every operation

    [rounded fl] computes every operation exactly and then rounds the result
    with [fl]: the standard model of floating-point arithmetic.  Exact
    arithmetic is the case where [fl] is the identity. *)

Definition rounded (fl : R -> R) : Arith R := {|
  of_int := fun z => fl (IZR z);
  fadd := fun a b => fl (a + b)%R;
  fsub := fun a b => fl (a - b)%R;
  fmul := fun a b => fl (a * b)%R;
  fdiv := fun a b =>
    if Req_dec_T b 0 then Raise ZeroDivisionError else Ok (fl (a / b)%R);
  fsqrt := fun a => fl (sqrt a);
  flt := fun a b => if Rlt_dec a b then true else false;
  ldexp := fun m e => fl (IZR m * powerRZ 2 e)%R
|}.

(** The unit roundoff of binary64 and the standard model: a rounding moves a
    value by at most that fraction of its magnitude. *)
Definition unit_roundoff : R := (/ 2 ^ 53)%R.

Definition standard_model (fl : R -> R) : Prop :=
  forall x : R, (Rabs (fl x - x) <= unit_roundoff * Rabs x)%R.

(** ** IEEE 754 binary64 arithmetic

    The operations of the Standard Library's specification of
    floating-point numbers at precision 53 and maximal exponent 1024,
    rounding to nearest with ties to even.  They compute, so the notebook's
    functions can be run on concrete inputs. *)

Module Binary64.

Definition prec : Z := 53%Z.
Definition emax : Z := 1024%Z.

Definition of_Z (z : Z) : spec_float :=
  binary_normalize prec emax z 0 false.

Definition is_zero (f : spec_float) : bool :=
  match f with
  | S754_zero _ => true
  | _ => false
  end.

Definition div_checked (a b : spec_float) : result spec_float :=
  if is_zero b then Raise ZeroDivisionError else Ok (SFdiv prec emax a b).

#[global] Instance arith : Arith spec_float := {|
  of_int := of_Z;
  fadd := SFadd prec emax;
  fsub := SFsub prec emax;
  fmul := SFmul prec emax;
  fdiv := div_checked;
  fsqrt := SFsqrt prec emax;
  flt := SFltb;
  ldexp := fun m e => SFldexp prec emax (of_Z m) e
|}.

(** The real number a finite float denotes. *)
Definition to_R (f : spec_float) : R :=
  match f with
  | S754_finite s m e =>
      ((if s then -1 else 1) * IZR (Zpos m) * powerRZ 2 e)%R
  | _ => 0%R
  end.

End Binary64.

(** ** Rounding to 53 bits

    [round53] rounds a real to the nearest number with a 53-bit
    significand, ties to the even significand, with no bound on the
    exponent: the rounding of binary64 wherever it neither overflows nor
    underflows. *)

(** The largest integer not above [r]. *)
Definition Rfloor (r : R) : Z := (up r - 1)%Z.

(** The integer nearest to [r], the even one of two equally near. *)
Definition nearest_even (r : R) : Z :=
  let f := Rfloor r in
  if Rlt_dec (r - IZR f) (/ 2) then f
  else if Rlt_dec (/ 2) (r - IZR f) then (f + 1)%Z
  else if Z.even f then f else (f + 1)%Z.

(** The exponent [e] with [2^e <= |x| < 2^(e+1)]. *)
Definition binade (x : R) : Z := Rfloor (ln (Rabs x) / ln 2).

Definition round53 (x : R) : R :=
  if Req_dec_T x 0 then 0%R
  else
    let s := powerRZ 2 (52 - binade x) in
    (IZR (nearest_even (x * s)) / s)%R.

(** [near e a b]: [b] approximates the non-negative value [a] with a
    relative error of at most [e]. *)
Definition near (e a b : R) : Prop :=
  (a * (1 - e) <= b <= a * (1 + e))%R.

(** ** Procedure A: the conditional-purchase simulation *)

(** The label set and the population size of the notebook. *)
Definition ages : list Z := [20; 30; 40; 50; 60; 70]%Z.
Definition population : nat := Z.to_nat 100000.

(** The generator, once seeded, is a fixed stream of raw words; the loop
    reads it at a cursor. *)
Definition tape : Type := nat -> Z.

(** [random.choice(a)]: the element at an index drawn in [0, len(a));
    an empty sequence is refused. *)
Definition choice (a : list Z) (w : Z) : result Z :=
  match a with
  | [] => Raise ValueError
  | d :: _ => Ok (nth (Z.to_nat (w mod Z.of_nat (length a))%Z) a d)
  end.

(** [random.random()]: a 53-bit integer scaled by [2^-53]. *)
Definition random_sample {T : Type} `{Arith T} (w : Z) : T :=
  ldexp (w mod 2 ^ 53)%Z (-53)%Z.

(** [d[k]] and [d[k] += 1] on a dictionary of counters. *)
Definition dict_get (d : gmap Z Z) (k : Z) : result Z :=
  match d !! k with
  | Some v => Ok v
  | None => Raise (KeyError k)
  end.

Definition dict_incr (d : gmap Z Z) (k : Z) : result (gmap Z Z) :=
  v ← dict_get d k;
  Ok (<[k := (v + 1)%Z]> d).

(** [{20:0, 30:0, ...}]: every label mapped to zero. *)
Definition zero_counts (labels : list Z) : gmap Z Z :=
  list_to_map ((fun k => (k, 0%Z)) <$> labels).

Record state : Type := State {
  cursor : nat;
  totals : gmap Z Z;
  purchases : gmap Z Z;
  totalPurchases : Z
}.

Definition initial (labels : list Z) : state :=
  State 0 (zero_counts labels) (zero_counts labels) 0%Z.

Section ProcedureA.
Context {T : Type} `{Arith T}.

(** One pass through the loop body:
    <<
    ageDecade = random.choice([20, 30, 40, 50, 60, 70])
    purchaseProbability = float(ageDecade) / 100.0
    totals[ageDecade] += 1
    if (random.random() < purchaseProbability):
        totalPurchases += 1
        purchases[ageDecade] += 1
    >> *)
Definition body (labels : list Z) (rng : tape) (st : state) : result state :=
  ageDecade ← choice labels (rng (cursor st));
  purchaseProbability ← fdiv (of_int ageDecade) (of_int 100%Z);
  totals' ← dict_incr (totals st) ageDecade;
  if flt (random_sample (rng (S (cursor st)))) purchaseProbability
  then
    let totalPurchases' := (totalPurchases st + 1)%Z in
    purchases' ← dict_incr (purchases st) ageDecade;
    Ok (State (S (S (cursor st))) totals' purchases' totalPurchases')
  else
    Ok (State (S (S (cursor st))) totals' (purchases st) (totalPurchases st)).

(** [for _ in range(n): body] *)
Fixpoint iterate (n : nat) (labels : list Z) (rng : tape) (st : state)
  : result state :=
  match n with
  | O => Ok st
  | S k => st' ← body labels rng st; iterate k labels rng st'
  end.

Definition simulate (labels : list Z) (n : nat) (rng : tape) : result state :=
  iterate n labels rng (initial labels).

(** [PEF = float(purchases[30]) / float(totals[30])] *)
Definition PEF (st : state) (L : Z) : result T :=
  p ← dict_get (purchases st) L;
  t ← dict_get (totals st) L;
  fdiv (of_int p) (of_int t).

(** [PF = float(totals[30]) / 100000.0] *)
Definition PF (st : state) (L : Z) (n : nat) : result T :=
  t ← dict_get (totals st) L;
  fdiv (of_int t) (of_int (Z.of_nat n)).

(** [PE = float(totalPurchases) / 100000.0] *)
Definition PE (st : state) (n : nat) : result T :=
  fdiv (of_int (totalPurchases st)) (of_int (Z.of_nat n)).

(** [float(purchases[30]) / 100000.0], the joint probability *)
Definition joint (st : state) (L : Z) (n : nat) : result T :=
  p ← dict_get (purchases st) L;
  fdiv (of_int p) (of_int (Z.of_nat n)).

(** [(purchases[30] / 100000.0) / PF], the last cell of the notebook *)
Definition joint_over_marginal (st : state) (L : Z) (n : nat) : result T :=
  j ← joint st L n;
  pf ← PF st L n;
  fdiv j pf.

End ProcedureA.

(** ** Definitions on the side of the specification *)

(** [sigma n f] is the sum of [f 0], ..., [f (n - 1)]. *)
Fixpoint sigma (n : nat) (f : nat -> R) : R :=
  match n with
  | O => 0%R
  | S k => (sigma k f + f k)%R
  end.

(** The arithmetic mean of a sequence, and the sequence at an index. *)
Definition at_index (x : list R) (i : nat) : R := nth i x 0%R.

Definition arithmetic_mean (x : list R) : R :=
  (sigma (length x) (at_index x) / INR (length x))%R.

(** A sequence is constant when no two of its elements differ. *)
Definition constant (x : list R) : Prop :=
  forall a b : R, In a x -> In b x -> a = b.

(** The affine image [a * x + b] of a sequence, element by element. *)
Definition affine (a b : R) (x : list R) : list R :=
  map (fun xi => (a * xi + b)%R) x.

(** The same image computed in the arithmetic of the sequence, as the
    array expression [a * x + b] does. *)
Definition affine_transform {T : Type} `{Arith T} (a b : T) (x : list T)
    : list T :=
  map (fun xi => fadd (fmul a xi) b) x.

(** Binary64 sequences on which rounding shows: two distinct numbers so
    small that their squared deviations underflow, and three copies of the
    float nearest to one tenth, whose computed mean is not that float. *)
Definition tiny_pair : list spec_float :=
  [@ldexp _ Binary64.arith 1 (-600); @ldexp _ Binary64.arith 1 (-599)]%Z.

Definition tenth : spec_float := S754_finite false 7205759403792794 (-56).

Definition tenths : list spec_float := [tenth; tenth; tenth].

(** The sum of the values of a dictionary of counters. *)
Definition total_count (d : gmap Z Z) : Z :=
  map_fold (fun _ v acc => (v + acc)%Z) 0%Z d.

(** A short stream of raw words, for running the loop on it. *)
Definition sample_tape : tape :=
  fun i => nth i [1; 2 ^ 52; 3; 2 ^ 51; 1; 2 ^ 50; 5; 2 ^ 53 - 1]%Z 0%Z.

(** The state four iterations on [sample_tape] lead to. *)
Definition sample_state : state :=
  State 8
    (<[30 := 2]> (<[50 := 1]> (<[70 := 1]> (zero_counts ages))))%Z
    (<[30 := 1]> (<[50 := 1]> (zero_counts ages)))%Z
    2%Z.

(** What one iteration of the generation loop does to the state, in the
    words of the specification: a label is chosen, its success probability
    is the label over 100, the individual purchases when the sample is below
    that probability; the tally of the label grows by one, and the purchase
    count of the label and the aggregate grow by one exactly on a
    purchase. *)
Definition iteration_spec {T : Type} `{Arith T}
    (labels : list Z) (rng : tape) (st st' : state) : Prop :=
  exists (label : Z) (probability : T),
    choice labels (rng (cursor st)) = Ok label /\
    label ∈ labels /\
    fdiv (of_int label) (of_int 100%Z) = Ok probability /\
    let purchased := flt (random_sample (rng (S (cursor st)))) probability in
    cursor st' = S (S (cursor st)) /\
    is_Some (totals st !! label) /\
    is_Some (purchases st !! label) /\
    (forall k : Z,
        totals st' !! k =
          if decide (k = label)
          then (fun v => (v + 1)%Z) <$> totals st !! k
          else totals st !! k) /\
    (forall k : Z,
        purchases st' !! k =
          if purchased && bool_decide (k = label)
          then (fun v => (v + 1)%Z) <$> purchases st !! k
          else purchases st !! k) /\
    totalPurchases st' =
      if purchased then (totalPurchases st + 1)%Z else totalPurchases st.

(** The invariant of the tallies after [n] individuals. *)
Definition tally_invariant (labels : list Z) (n : nat) (st : state) : Prop :=
  dom (totals st) = list_to_set labels /\
  dom (purchases st) = list_to_set labels /\
  (forall (L p t : Z),
      purchases st !! L = Some p -> totals st !! L = Some t ->
      (0 <= p <= t)%Z) /\
  total_count (totals st) = Z.of_nat n /\
  total_count (purchases st) = totalPurchases st.

(** ** Closed forms in exact arithmetic *)

(** The sum and the dot product by recursion on the sequences, and the
    deviations of a sequence from its mean. *)
Definition Rsum (x : list R) : R := fold_right Rplus 0%R x.

Fixpoint Rdot (a b : list R) : R :=
  match a, b with
  | p :: a', q :: b' => (p * q + Rdot a' b')%R
  | _, _ => 0%R
  end.

Definition Rmean (x : list R) : R := (Rsum x / INR (length x))%R.

Definition deviations (x : list R) : list R :=
  map (fun xi => (xi - Rmean x)%R) x.

(** The sum of squared deviations of [x], and of products of deviations. *)
Definition Sxy (x y : list R) : R := Rdot (deviations x) (deviations y).

(** The value [correlation] computes when no divisor is zero. *)
Definition correlation_value (x y : list R) : R :=
  (Sxy x y / (INR (length x) - 1)
   / sqrt (Sxy x x / INR (length x))
   / sqrt (Sxy y y / INR (length y)))%R.

(** The state two iterations on [sample_tape] lead to. *)
Definition sample_midstate : state :=
  State 4
    (<[30 := 1]> (<[50 := 1]> (zero_counts ages)))%Z
    (<[50 := 1]> (zero_counts ages))%Z
    1%Z.

(** ** The remaining cells of the notebooks *)

(** [purchaseAmount = 100 - pageSpeeds * 3], element by element. *)
Definition linear_purchaseAmount {T : Type} `{Arith T}
    (pageSpeeds : list T) : list T :=
  map (fun s => fsub (of_int 100%Z) (fmul s (of_int 3%Z))) pageSpeeds.

(** [PE * PF], the product of the two marginal probabilities. *)
Definition product_of_marginals {T : Type} `{Arith T}
    (st : state) (L : Z) (n : nat) : result T :=
  pf ← PF st L n;
  pe ← PE st n;
  Ok (fmul pe pf).

(** * Properties *)

(** ** The result monad *)

Lemma bind_Ok {A B : Type} (k : A -> result B) (a : A) :
  (Ok a ≫= k) = k a.
Proof. reflexivity. Qed.

(** ** Procedure B in exact arithmetic *)

Section ExactB.
Local Open Scope R_scope.

Lemma fold_left_Rplus (l : list R) (a : R) :
  fold_left Rplus l a = a + Rsum l.
Proof.
  revert a; induction l as [|p l IH]; intros a; simpl.
  - lra.
  - rewrite IH. lra.
Qed.

Lemma sum_exact (l : list R) : sum l = Rsum l.
Proof. unfold sum; simpl. rewrite fold_left_Rplus. lra. Qed.

Lemma fold_left_dot (l : list (R * R)) (a b : list R) (c : R) :
  l = combine a b ->
  fold_left (fun acc p => acc + fst p * snd p) l c = c + Rdot a b.
Proof.
  intros ->. revert b c; induction a as [|p a IH]; intros [|q b] c; simpl;
    try lra.
  rewrite IH. lra.
Qed.

Lemma INR_length_neq_0 (l : list R) : l <> [] -> INR (length l) <> 0.
Proof.
  intros Hl. apply not_0_INR. destruct l; [congruence | simpl; lia].
Qed.

Lemma Rdiv_checked_ok (a b : R) : b <> 0 -> Rdiv_checked a b = Ok (a / b).
Proof. intros Hb. unfold Rdiv_checked. destruct (Req_dec_T b 0); congruence. Qed.

Lemma Rdiv_checked_zero (a : R) : Rdiv_checked a 0 = Raise ZeroDivisionError.
Proof. unfold Rdiv_checked. destruct (Req_dec_T 0 0); congruence. Qed.

Lemma Rdiv_checked_cases (a b : R) :
  (b = 0 /\ Rdiv_checked a b = Raise ZeroDivisionError) \/
  (b <> 0 /\ Rdiv_checked a b = Ok (a / b)).
Proof. unfold Rdiv_checked. destruct (Req_dec_T b 0); auto. Qed.

Lemma mean_exact (l : list R) : l <> [] -> mean l = Ok (Rmean l).
Proof.
  intros Hl. unfold mean, Rmean; simpl.
  rewrite <- INR_IZR_INZ, sum_exact.
  apply Rdiv_checked_ok, INR_length_neq_0, Hl.
Qed.

Lemma mean_nil : mean (@nil R) = Raise ZeroDivisionError.
Proof. unfold mean; simpl. apply Rdiv_checked_zero. Qed.

Lemma mapM_read (m : R) (l : list R) :
  mapM (fun xi => c ← Ok m; Ok (fsub xi c)) l
  = Ok (map (fun xi => xi - m) l).
Proof.
  induction l as [|p l IH]; [reflexivity |].
  cbn [mapM]. rewrite !bind_Ok.
  fold (mapM (fun xi : R => c ← Ok m; Ok (fsub xi c)) l).
  rewrite IH, bind_Ok. reflexivity.
Qed.

Lemma de_mean_exact (l : list R) : l <> [] -> de_mean l = Ok (deviations l).
Proof.
  intros Hl. unfold de_mean. rewrite mean_exact by exact Hl.
  apply mapM_read.
Qed.

(** The mean of an empty sequence is not read. *)
Lemma de_mean_nil : de_mean (@nil R) = Ok [].
Proof. reflexivity. Qed.

Lemma length_deviations (l : list R) : length (deviations l) = length l.
Proof. unfold deviations. apply length_map. Qed.

Lemma dot_exact (a b : list R) :
  length a = length b -> dot a b = Ok (Rdot a b).
Proof.
  intros Hab. unfold dot. destruct (decide (length a = length b)); [|contradiction].
  simpl. rewrite (fold_left_dot _ a b) by reflexivity. f_equal. lra.
Qed.

Lemma dot_mismatch (a b : list R) :
  length a <> length b -> dot a b = Raise ValueError.
Proof.
  intros Hab. unfold dot. destruct (decide (length a = length b)); [contradiction|].
  reflexivity.
Qed.

(** The divisor [n - 1] of [covariance]. *)
Lemma divisor_exact (n : nat) : IZR (Z.of_nat n - 1) = INR n - 1.
Proof. rewrite minus_IZR, <- INR_IZR_INZ. reflexivity. Qed.

Lemma covariance_exact (x y : list R) :
  length x = length y -> (2 <= length x)%nat ->
  covariance x y = Ok (Sxy x y / (INR (length x) - 1)).
Proof.
  intros Hlen Hn. unfold covariance.
  assert (Hx : x <> []) by (destruct x; simpl in *; [lia | congruence]).
  assert (Hy : y <> []) by (destruct y; simpl in *; [lia | congruence]).
  rewrite (de_mean_exact x Hx), bind_Ok, (de_mean_exact y Hy), bind_Ok.
  rewrite dot_exact by (rewrite !length_deviations; exact Hlen).
  rewrite bind_Ok. simpl. rewrite divisor_exact.
  apply Rdiv_checked_ok.
  assert (2 <= INR (length x)) by (apply (le_INR 2); exact Hn). lra.
Qed.

(** *** Sums of squares and constant sequences *)

Lemma Rsum_map_square (l : list R) :
  Rsum (map (fun d => d * d) l) = Rdot l l.
Proof. induction l as [|p l IH]; simpl; [reflexivity | rewrite IH; reflexivity]. Qed.

Lemma Rdot_self_nonneg (l : list R) : 0 <= Rdot l l.
Proof. induction l as [|p l IH]; simpl; [lra | nra]. Qed.

Lemma Rdot_self_zero (l : list R) :
  Rdot l l = 0 <-> (forall d, In d l -> d = 0).
Proof.
  induction l as [|p l IH]; simpl.
  - split; [intros _ d [] | reflexivity].
  - pose proof (Rdot_self_nonneg l) as Hl. split.
    + intros Hz d [<- | Hd]; [nra |]. apply IH; [nra | exact Hd].
    + intros Hall. assert (p = 0) as -> by (apply Hall; left; reflexivity).
      assert (Rdot l l = 0) as -> by (apply IH; intros d Hd; apply Hall; right; exact Hd).
      lra.
Qed.

Lemma Rsum_all_eq (c : R) (l : list R) :
  (forall a, In a l -> a = c) -> Rsum l = INR (length l) * c.
Proof.
  induction l as [|p l IH]; intros Hall.
  - simpl. lra.
  - change (Rsum (p :: l)) with (p + Rsum l).
    change (length (p :: l)) with (S (length l)). rewrite S_INR.
    rewrite IH by (intros a Ha; apply Hall; right; exact Ha).
    rewrite (Hall p) by (left; reflexivity). lra.
Qed.

Lemma Rmean_all_eq (c : R) (l : list R) :
  l <> [] -> (forall a, In a l -> a = c) -> Rmean l = c.
Proof.
  intros Hl Hall. unfold Rmean. rewrite (Rsum_all_eq c) by exact Hall.
  pose proof (INR_length_neq_0 l Hl). field. assumption.
Qed.

Lemma In_deviations (x : list R) (d : R) :
  In d (deviations x) <-> exists xi, In xi x /\ d = xi - Rmean x.
Proof.
  unfold deviations. rewrite in_map_iff. split; intros (xi & H1 & H2); exists xi; auto.
Qed.

(** A sequence has zero variance exactly when it is constant. *)
Lemma Sxx_zero_iff_constant (x : list R) : Sxy x x = 0 <-> constant x.
Proof.
  unfold Sxy. rewrite Rdot_self_zero. split.
  - intros Hz a b Ha Hb.
    assert (a - Rmean x = 0) by (apply Hz, In_deviations; eauto).
    assert (b - Rmean x = 0) by (apply Hz, In_deviations; eauto).
    lra.
  - intros Hc d Hd. apply In_deviations in Hd as (xi & Hxi & ->).
    assert (Hx : x <> []) by (intros ->; destruct Hxi).
    rewrite (Rmean_all_eq xi) by (auto || (intros a Ha; apply Hc; assumption)).
    lra.
Qed.

Lemma short_constant (x : list R) : (length x < 2)%nat -> constant x.
Proof.
  destruct x as [|p [|q x]]; simpl; intros Hn a b Ha Hb.
  - destruct Ha.
  - destruct Ha as [<-|[]], Hb as [<-|[]]. reflexivity.
  - lia.
Qed.

(** *** The standard deviation *)

Lemma std_exact (x : list R) :
  x <> [] -> std x = Ok (sqrt (Sxy x x / INR (length x))).
Proof.
  intros Hx. unfold std. rewrite (mean_exact x Hx), bind_Ok.
  change (map (fun xi => fsub xi (Rmean x)) x) with (deviations x).
  rewrite mean_exact.
  - rewrite bind_Ok. unfold Rmean. simpl.
    rewrite Rsum_map_square, length_map, length_deviations. reflexivity.
  - intros Hnil. apply (f_equal (@length R)) in Hnil.
    rewrite length_map, length_deviations in Hnil.
    destruct x; [congruence | discriminate].
Qed.

Lemma std_nil : std (@nil R) = Raise ZeroDivisionError.
Proof. unfold std. rewrite mean_nil. reflexivity. Qed.

Lemma variance_nonneg (x : list R) : 0 <= Sxy x x / INR (length x).
Proof.
  destruct x as [|p x].
  - unfold Sxy; simpl. lra.
  - assert (0 < INR (length (p :: x))) by (apply lt_0_INR; simpl; lia).
    pose proof (Rdot_self_nonneg (deviations (p :: x))).
    unfold Sxy, Rdiv. apply Rmult_le_pos; [assumption |].
    left. apply Rinv_0_lt_compat. assumption.
Qed.

Lemma sqrt_variance_zero_iff (x : list R) :
  x <> [] -> sqrt (Sxy x x / INR (length x)) = 0 <-> Sxy x x = 0.
Proof.
  intros Hx. pose proof (INR_length_neq_0 x Hx) as Hn. split.
  - intros Hs. apply sqrt_eq_0 in Hs; [| apply variance_nonneg].
    apply (f_equal (fun v => v * INR (length x))) in Hs.
    field_simplify in Hs; [lra | assumption].
  - intros ->. unfold Rdiv. rewrite Rmult_0_l. apply sqrt_0.
Qed.

(** *** The correlation *)

Lemma correlation_exact (x y : list R) :
  length x = length y -> (2 <= length x)%nat ->
  Sxy x x <> 0 -> Sxy y y <> 0 ->
  correlation x y = Ok (correlation_value x y).
Proof.
  intros Hlen Hn Hxx Hyy. unfold correlation, correlation_value.
  assert (Hx : x <> []) by (destruct x; simpl in *; [lia | congruence]).
  assert (Hy : y <> []) by (destruct y; simpl in *; [lia | congruence]).
  rewrite (covariance_exact x y Hlen Hn), bind_Ok.
  rewrite (std_exact x Hx), bind_Ok. simpl.
  rewrite Rdiv_checked_ok by (rewrite sqrt_variance_zero_iff; assumption).
  rewrite bind_Ok, (std_exact y Hy), bind_Ok.
  apply Rdiv_checked_ok. rewrite sqrt_variance_zero_iff; assumption.
Qed.

(** Two one-element sequences: the divisor [n - 1] is zero. *)
Lemma covariance_single (x y : list R) :
  length x = 1%nat -> length y = 1%nat ->
  covariance x y = Raise ZeroDivisionError.
Proof.
  intros Hx Hy. unfold covariance.
  destruct x as [|p [|q x]]; try discriminate.
  destruct y as [|p' [|q' y]]; try discriminate.
  rewrite !de_mean_exact by discriminate. rewrite !bind_Ok.
  rewrite dot_exact by reflexivity. rewrite bind_Ok.
  simpl. apply Rdiv_checked_zero.
Qed.

(** Two empty sequences: the dot product is zero and the divisor is [-1]. *)
Lemma covariance_nil : covariance (@nil R) (@nil R) = Ok 0.
Proof.
  unfold covariance. rewrite de_mean_nil, !bind_Ok.
  rewrite dot_exact by reflexivity. rewrite bind_Ok.
  change (Rdiv_checked 0 (-1) = Ok 0).
  rewrite Rdiv_checked_ok by lra. f_equal.
  unfold Rdiv. apply Rmult_0_l.
Qed.

Lemma correlation_faults (x y : list R) :
  length x = length y -> Sxy x x = 0 \/ Sxy y y = 0 ->
  correlation x y = Raise ZeroDivisionError.
Proof.
  intros Hlen Hz. unfold correlation.
  destruct (Nat.eq_dec (length x) 0%nat) as [H0 | H0].
  { destruct x; [| discriminate]. destruct y; [| discriminate].
    rewrite covariance_nil, bind_Ok, std_nil. reflexivity. }
  assert (Hx : x <> []) by (intros ->; apply H0; reflexivity).
  assert (Hy : y <> []) by (intros ->; apply H0; rewrite Hlen; reflexivity).
  destruct (le_lt_dec 2 (length x)) as [Hn | Hn].
  - rewrite (covariance_exact x y Hlen Hn), bind_Ok.
    rewrite (std_exact x Hx), bind_Ok. simpl.
    destruct (Rdiv_checked_cases (Sxy x y / (INR (length x) - 1))
                (sqrt (Sxy x x / INR (length x)))) as [[_ ->] | [Hnz ->]];
      [reflexivity |].
    rewrite bind_Ok, (std_exact y Hy), bind_Ok.
    destruct Hz as [Hz | Hz].
    + exfalso. apply Hnz. apply sqrt_variance_zero_iff; assumption.
    + assert (sqrt (Sxy y y / INR (length y)) = 0) as ->
        by (apply sqrt_variance_zero_iff; assumption).
      apply Rdiv_checked_zero.
  - rewrite (covariance_single x y) by lia. reflexivity.
Qed.

End ExactB.

(** ** Sums over indices *)

Section Indexed.
Local Open Scope R_scope.

Lemma sigma_shift (n : nat) (f : nat -> R) :
  sigma (S n) f = f O + sigma n (fun i => f (S i)).
Proof.
  induction n as [|n IH].
  - simpl. lra.
  - change (sigma (S (S n)) f) with (sigma (S n) f + f (S n)).
    rewrite IH. simpl. lra.
Qed.

Lemma Rsum_sigma (l : list R) : Rsum l = sigma (length l) (at_index l).
Proof.
  induction l as [|p l IH]; [reflexivity |].
  change (length (p :: l)) with (S (length l)).
  rewrite sigma_shift. simpl. rewrite IH. reflexivity.
Qed.

Lemma Rdot_sigma (a b : list R) :
  length a = length b ->
  Rdot a b = sigma (length a) (fun i => at_index a i * at_index b i).
Proof.
  revert b; induction a as [|p a IH]; intros [|q b] Hlen; try discriminate;
    [reflexivity |].
  change (length (p :: a)) with (S (length a)).
  rewrite sigma_shift. simpl. rewrite (IH b) by (simpl in Hlen; lia).
  reflexivity.
Qed.

Lemma Rmean_arithmetic_mean (x : list R) : Rmean x = arithmetic_mean x.
Proof. unfold Rmean, arithmetic_mean. rewrite Rsum_sigma. reflexivity. Qed.

Lemma at_index_deviations (x : list R) (i : nat) :
  (i < length x)%nat ->
  at_index (deviations x) i = at_index x i - arithmetic_mean x.
Proof.
  intros Hi. unfold at_index, deviations.
  rewrite (nth_indep _ 0 (0 - Rmean x)) by (rewrite length_map; exact Hi).
  rewrite (map_nth (fun xi => xi - Rmean x)).
  rewrite Rmean_arithmetic_mean. reflexivity.
Qed.

End Indexed.

(** ** Affine images *)

Section Affine.
Local Open Scope R_scope.

Lemma length_affine (a b : R) (x : list R) : length (affine a b x) = length x.
Proof. apply length_map. Qed.

Lemma Rsum_affine (a b : R) (x : list R) :
  Rsum (affine a b x) = a * Rsum x + INR (length x) * b.
Proof.
  induction x as [|p x IH].
  - simpl. lra.
  - change (Rsum (affine a b (p :: x))) with (a * p + b + Rsum (affine a b x)).
    change (length (p :: x)) with (S (length x)). rewrite S_INR, IH.
    simpl. lra.
Qed.

Lemma Rmean_affine (a b : R) (x : list R) :
  x <> [] -> Rmean (affine a b x) = a * Rmean x + b.
Proof.
  intros Hx. unfold Rmean. rewrite Rsum_affine, length_affine.
  pose proof (INR_length_neq_0 x Hx). field. assumption.
Qed.

Lemma deviations_affine (a b : R) (x : list R) :
  x <> [] -> deviations (affine a b x) = map (Rmult a) (deviations x).
Proof.
  intros Hx. unfold deviations at 1. rewrite (Rmean_affine a b x Hx).
  unfold affine, deviations. rewrite !map_map.
  apply map_ext. intros xi. lra.
Qed.

Lemma Rdot_scale_l (a : R) (u v : list R) :
  Rdot (map (Rmult a) u) v = a * Rdot u v.
Proof.
  revert v; induction u as [|p u IH]; intros [|q v]; simpl; try lra.
  rewrite IH. lra.
Qed.

Lemma Rdot_scale_r (a : R) (u v : list R) :
  Rdot u (map (Rmult a) v) = a * Rdot u v.
Proof.
  revert v; induction u as [|p u IH]; intros [|q v]; simpl; try lra.
  rewrite IH. lra.
Qed.

Lemma Sxy_affine_l (a b : R) (x y : list R) :
  x <> [] -> Sxy (affine a b x) y = a * Sxy x y.
Proof.
  intros Hx. unfold Sxy. rewrite deviations_affine by exact Hx.
  apply Rdot_scale_l.
Qed.

Lemma Sxy_affine_r (a b : R) (x y : list R) :
  y <> [] -> Sxy x (affine a b y) = a * Sxy x y.
Proof.
  intros Hy. unfold Sxy. rewrite deviations_affine by exact Hy.
  apply Rdot_scale_r.
Qed.

Lemma Sxx_affine (a b : R) (x : list R) :
  x <> [] -> Sxy (affine a b x) (affine a b x) = (a * a) * Sxy x x.
Proof.
  intros Hx. rewrite Sxy_affine_l by exact Hx.
  rewrite Sxy_affine_r by exact Hx. lra.
Qed.

Lemma sqrt_scaled_variance (a v : R) :
  0 <= v -> sqrt (a * a * v) = Rabs a * sqrt v.
Proof.
  intros Hv. rewrite sqrt_mult; [| nra | exact Hv].
  f_equal. apply sqrt_Rsqr_abs.
Qed.

Lemma std_value_affine (a b : R) (x : list R) :
  x <> [] ->
  sqrt (Sxy (affine a b x) (affine a b x) / INR (length (affine a b x)))
  = Rabs a * sqrt (Sxy x x / INR (length x)).
Proof.
  intros Hx. rewrite Sxx_affine, length_affine by exact Hx.
  rewrite <- sqrt_scaled_variance by apply variance_nonneg.
  f_equal. unfold Rdiv. ring.
Qed.

Lemma correlation_value_affine_l (a b : R) (x y : list R) :
  x <> [] -> a <> 0 -> Sxy x x <> 0 -> Sxy y y <> 0 ->
  (2 <= length x)%nat ->
  correlation_value (affine a b x) y = a / Rabs a * correlation_value x y.
Proof.
  intros Hx Ha Hxx Hyy Hn. unfold correlation_value.
  rewrite std_value_affine by exact Hx.
  rewrite Sxy_affine_l, length_affine by exact Hx.
  assert (Hsx : sqrt (Sxy x x / INR (length x)) <> 0)
    by (rewrite sqrt_variance_zero_iff; assumption).
  assert (Hy : y <> []) by (intros ->; apply Hyy; reflexivity).
  assert (Hsy : sqrt (Sxy y y / INR (length y)) <> 0)
    by (rewrite sqrt_variance_zero_iff; assumption).
  assert (Habs : Rabs a <> 0) by (apply Rabs_no_R0; exact Ha).
  assert (2 <= INR (length x)) by (apply (le_INR 2); exact Hn).
  field. repeat split; try assumption. lra.
Qed.

Lemma correlation_value_affine_r (a b : R) (x y : list R) :
  y <> [] -> a <> 0 -> Sxy x x <> 0 -> Sxy y y <> 0 ->
  (2 <= length x)%nat ->
  correlation_value x (affine a b y) = a / Rabs a * correlation_value x y.
Proof.
  intros Hy Ha Hxx Hyy Hn. unfold correlation_value.
  rewrite std_value_affine by exact Hy.
  rewrite Sxy_affine_r by exact Hy.
  assert (Hx : x <> []) by (intros ->; apply Hxx; reflexivity).
  assert (Hsx : sqrt (Sxy x x / INR (length x)) <> 0)
    by (rewrite sqrt_variance_zero_iff; assumption).
  assert (Hsy : sqrt (Sxy y y / INR (length y)) <> 0)
    by (rewrite sqrt_variance_zero_iff; assumption).
  assert (Habs : Rabs a <> 0) by (apply Rabs_no_R0; exact Ha).
  assert (2 <= INR (length x)) by (apply (le_INR 2); exact Hn).
  field. repeat split; try assumption. lra.
Qed.

Lemma Sxx_affine_nonzero (a b : R) (x : list R) :
  a <> 0 -> Sxy x x <> 0 ->
  Sxy (affine a b x) (affine a b x) <> 0.
Proof.
  intros Ha Hxx.
  assert (Hx : x <> []) by (intros ->; apply Hxx; reflexivity).
  rewrite Sxx_affine by exact Hx.
  intros Hz. apply Rmult_integral in Hz as [Hz | Hz]; [| contradiction].
  apply Rmult_integral in Hz as [Hz | Hz]; contradiction.
Qed.

(** The correlation of a sequence with itself: the divisors [n - 1] of
    the covariance and [n] of the variance do not cancel. *)
Lemma correlation_value_self (x : list R) :
  (2 <= length x)%nat -> Sxy x x <> 0 ->
  correlation_value x x = INR (length x) / (INR (length x) - 1).
Proof.
  intros Hn Hxx. unfold correlation_value.
  assert (Hx : x <> []) by (intros ->; apply Hxx; reflexivity).
  assert (2 <= INR (length x)) by (apply (le_INR 2); exact Hn).
  pose proof (variance_nonneg x) as Hv.
  set (v := Sxy x x / INR (length x)) in *.
  assert (Hs : sqrt v <> 0)
    by (unfold v; rewrite sqrt_variance_zero_iff; assumption).
  assert (Hvv : Sxy x x = sqrt v * sqrt v * INR (length x)).
  { rewrite sqrt_sqrt by exact Hv. unfold v. field. lra. }
  rewrite Hvv at 1. field. repeat split; try assumption; lra.
Qed.

End Affine.

(** ** Procedure B: the statements *)

Section StatementsB.
Local Open Scope R_scope.

Lemma nonconstant_long (x : list R) : ~ constant x -> (2 <= length x)%nat.
Proof.
  intros Hc. destruct (le_lt_dec 2 (length x)) as [Hn | Hn]; [exact Hn |].
  exfalso. apply Hc, short_constant, Hn.
Qed.

Lemma nonconstant_Sxx (x : list R) : ~ constant x -> Sxy x x <> 0.
Proof. intros Hc Hz. apply Hc, Sxx_zero_iff_constant, Hz. Qed.

Lemma sign_pos (a : R) : 0 < a -> a / Rabs a = 1.
Proof. intros Ha. rewrite Rabs_right by lra. field. lra. Qed.

Lemma sign_neg (a : R) : a < 0 -> a / Rabs a = -1.
Proof. intros Ha. rewrite Rabs_left by lra. field. lra. Qed.

(** C1. For sequences [x], [y] of the same length [n >= 2],
    [de_mean] returns sequences of the length of its argument whose
    [i]-th element is the [i]-th element of the argument minus its
    arithmetic mean, and [covariance x y] returns the sum over [i] of
    [de_mean(x)[i] * de_mean(y)[i]], divided by [n - 1]. *)
Theorem covariance_formula (x y : list R) :
  length x = length y -> (2 <= length x)%nat ->
  exists dx dy : list R,
    de_mean x = Ok dx /\ de_mean y = Ok dy /\
    length dx = length x /\ length dy = length y /\
    (forall i, (i < length x)%nat ->
               at_index dx i = at_index x i - arithmetic_mean x) /\
    (forall i, (i < length y)%nat ->
               at_index dy i = at_index y i - arithmetic_mean y) /\
    covariance x y =
      Ok (sigma (length x) (fun i => at_index dx i * at_index dy i)
          / (INR (length x) - 1)).
Proof.
  intros Hlen Hn.
  assert (Hx : x <> []) by (destruct x; simpl in *; [lia | congruence]).
  assert (Hy : y <> []) by (destruct y; simpl in *; [lia | congruence]).
  exists (deviations x), (deviations y).
  repeat split.
  - apply de_mean_exact, Hx.
  - apply de_mean_exact, Hy.
  - apply length_deviations.
  - apply length_deviations.
  - apply at_index_deviations.
  - apply at_index_deviations.
  - rewrite (covariance_exact x y Hlen Hn). unfold Sxy.
    rewrite Rdot_sigma by (rewrite !length_deviations; exact Hlen).
    rewrite length_deviations. reflexivity.
Qed.

Lemma covariance_formula_witness :
  exists dx dy : list R,
    de_mean [1; 2; 6] = Ok dx /\ de_mean [4; 0; 2] = Ok dy /\
    length dx = length [1; 2; 6] /\ length dy = length [4; 0; 2] /\
    (forall i, (i < length [1; 2; 6])%nat ->
               at_index dx i = at_index [1; 2; 6] i - arithmetic_mean [1; 2; 6]) /\
    (forall i, (i < length [4; 0; 2])%nat ->
               at_index dy i = at_index [4; 0; 2] i - arithmetic_mean [4; 0; 2]) /\
    covariance [1; 2; 6] [4; 0; 2] =
      Ok (sigma (length [1; 2; 6]) (fun i => at_index dx i * at_index dy i)
          / (INR (length [1; 2; 6]) - 1)).
Proof.
  apply (covariance_formula [1; 2; 6] [4; 0; 2]); [reflexivity | simpl; lia].
Defined.

(** C8. In exact arithmetic, for sequences of the same length [n]: a
    division by zero is performed exactly when [n < 2].  For [n = 0] it is
    the one inside [mean], whose result is not read, and [covariance]
    returns [0]; for [n = 1] it is the division by [n - 1], and
    [covariance] is undefined; for [n >= 2] [covariance] returns a value.
    The standard deviation is zero exactly on constant sequences;
    [correlation] is undefined, by a division by zero, exactly when one of
    the sequences is constant, and returns a value when both are
    non-constant. *)
Theorem division_by_zero_unguarded (x y : list R) :
  length x = length y ->
  (mean x = Raise ZeroDivisionError <-> length x = 0%nat) /\
  (length x = 0%nat -> covariance x y = Ok 0) /\
  (covariance x y = Raise ZeroDivisionError <-> length x = 1%nat) /\
  ((2 <= length x)%nat -> exists c, covariance x y = Ok c) /\
  (x <> [] -> (std x = Ok 0 <-> constant x)) /\
  (correlation x y = Raise ZeroDivisionError <-> constant x \/ constant y) /\
  (~ constant x -> ~ constant y -> exists r, correlation x y = Ok r).
Proof.
  intros Hlen. repeat apply conj.
  - destruct x as [|p x]; [intros _; reflexivity |].
    rewrite mean_exact by discriminate. discriminate.
  - intros H0. destruct x; [apply mean_nil | discriminate].
  - intros H0. destruct x; [| discriminate]. destruct y; [| discriminate].
    apply covariance_nil.
  - intros Hc. destruct (le_lt_dec 2 (length x)) as [Hn | Hn].
    + rewrite (covariance_exact x y Hlen Hn) in Hc. discriminate.
    + destruct x as [|p x]; [| simpl in *; lia].
      destruct y; [| discriminate].
      rewrite covariance_nil in Hc. discriminate.
  - intros H1. apply covariance_single; [exact H1 | rewrite <- Hlen; exact H1].
  - intros Hn. rewrite (covariance_exact x y Hlen Hn). eauto.
  - intros Hx. rewrite (std_exact x) by assumption. split.
    + intros Hs. injection Hs as Hs. apply Sxx_zero_iff_constant.
      apply sqrt_variance_zero_iff in Hs; assumption.
    + intros Hc. f_equal.
      apply sqrt_variance_zero_iff; [assumption |].
      apply Sxx_zero_iff_constant, Hc.
  - intros Hc.
    destruct (Req_dec_T (Sxy x x) 0) as [Hxx | Hxx];
      [left; apply Sxx_zero_iff_constant, Hxx |].
    destruct (Req_dec_T (Sxy y y) 0) as [Hyy | Hyy];
      [right; apply Sxx_zero_iff_constant, Hyy |].
    assert (Hn : (2 <= length x)%nat).
    { apply nonconstant_long. intros Hx. apply Hxx, Sxx_zero_iff_constant, Hx. }
    rewrite (correlation_exact x y Hlen Hn Hxx Hyy) in Hc. discriminate.
  - intros Hc. apply correlation_faults; [exact Hlen |].
    destruct Hc as [Hc | Hc]; [left | right]; apply Sxx_zero_iff_constant, Hc.
  - intros Hx Hy. exists (correlation_value x y).
    apply correlation_exact; auto using nonconstant_long, nonconstant_Sxx.
Qed.

Lemma division_by_zero_unguarded_witness :
  ((mean [3] = Raise ZeroDivisionError <-> length [3] = 0%nat) /\
   (length [3] = 0%nat -> covariance [3] [4] = Ok 0) /\
   (covariance [3] [4] = Raise ZeroDivisionError <-> length [3] = 1%nat) /\
   ((2 <= length [3])%nat -> exists c, covariance [3] [4] = Ok c) /\
   ([3] <> [] -> (std [3] = Ok 0 <-> constant [3])) /\
   (correlation [3] [4] = Raise ZeroDivisionError
    <-> constant [3] \/ constant [4]) /\
   (~ constant [3] -> ~ constant [4] -> exists r, correlation [3] [4] = Ok r))
  /\
  ((mean [1; 2] = Raise ZeroDivisionError <-> length [1; 2] = 0%nat) /\
   (length [1; 2] = 0%nat -> covariance [1; 2] [3; 7] = Ok 0) /\
   (covariance [1; 2] [3; 7] = Raise ZeroDivisionError
    <-> length [1; 2] = 1%nat) /\
   ((2 <= length [1; 2])%nat -> exists c, covariance [1; 2] [3; 7] = Ok c) /\
   ([1; 2] <> [] -> (std [1; 2] = Ok 0 <-> constant [1; 2])) /\
   (correlation [1; 2] [3; 7] = Raise ZeroDivisionError
    <-> constant [1; 2] \/ constant [3; 7]) /\
   (~ constant [1; 2] -> ~ constant [3; 7] ->
    exists r, correlation [1; 2] [3; 7] = Ok r)).
Proof.
  split.
  - apply (division_by_zero_unguarded [3] [4]). reflexivity.
  - apply (division_by_zero_unguarded [1; 2] [3; 7]). reflexivity.
Defined.

(** The claim of C8 as written fails at three inputs.  On two empty
    sequences, of length [0 < 2], [covariance] returns a value: zero in
    exact arithmetic, the negative zero in binary64.  In binary64 the
    non-constant [tiny_pair] has standard deviation zero, so [correlation]
    divides by zero on it, although its covariance with [[1, 2]] is
    returned; and the constant [tenths] has a non-zero standard deviation,
    so [correlation] returns a value on it. *)
Lemma division_by_zero_binary64 :
  @covariance R exact [] [] = Ok 0 /\
  @covariance _ Binary64.arith [] [] = Ok (S754_zero true) /\
  length tiny_pair = 2%nat /\
  nth 0 tiny_pair (S754_zero false) <> nth 1 tiny_pair (S754_zero false) /\
  @std _ Binary64.arith tiny_pair = Ok (S754_zero false) /\
  (exists c, @covariance _ Binary64.arith tiny_pair
               (map Binary64.of_Z [1; 2]%Z) = Ok c) /\
  @correlation _ Binary64.arith tiny_pair (map Binary64.of_Z [1; 2]%Z)
  = Raise ZeroDivisionError /\
  @fdiv _ Binary64.arith (Binary64.of_Z 1) (Binary64.of_Z 10) = Ok tenth /\
  (forall a b : spec_float, In a tenths -> In b tenths -> a = b) /\
  @std _ Binary64.arith tenths
  = Ok (S754_finite false 4503599627370496 (-108)) /\
  @correlation _ Binary64.arith tenths (map Binary64.of_Z [1; 2; 3]%Z)
  = Ok (S754_zero false).
Proof.
  repeat apply conj; try (vm_compute; reflexivity).
  - apply covariance_nil.
  - vm_compute. discriminate.
  - eexists. vm_compute. reflexivity.
  - unfold tenths. simpl. intros a b Ha Hb.
    repeat (destruct Ha as [Ha | Ha]; [subst a |]); [| | | contradiction];
      repeat (destruct Hb as [Hb | Hb]; [subst b |]);
      reflexivity || contradiction.
Qed.

(** C9. In exact arithmetic, for non-constant sequences [x], [y] of the
    same length, [correlation] returns a value; replacing [x] (or [y]) by
    its affine image [a * x + b] leaves that value unchanged when [a > 0]
    and negates it when [a < 0]. *)
Theorem correlation_affine (x y : list R) (a b : R) :
  length x = length y -> (2 <= length x)%nat ->
  ~ constant x -> ~ constant y ->
  exists r : R,
    correlation x y = Ok r /\
    (0 < a -> correlation (affine a b x) y = Ok r /\
              correlation x (affine a b y) = Ok r) /\
    (a < 0 -> correlation (affine a b x) y = Ok (- r) /\
              correlation x (affine a b y) = Ok (- r)).
Proof.
  intros Hlen Hn Hx Hy.
  pose proof (nonconstant_Sxx x Hx) as Hxx.
  pose proof (nonconstant_Sxx y Hy) as Hyy.
  assert (Hx0 : x <> []) by (intros ->; apply Hxx; reflexivity).
  assert (Hy0 : y <> []) by (intros ->; apply Hyy; reflexivity).
  exists (correlation_value x y). split; [apply correlation_exact; assumption |].
  assert (Hl : a <> 0 ->
               correlation (affine a b x) y
               = Ok (a / Rabs a * correlation_value x y)).
  { intros Ha. rewrite correlation_exact.
    - rewrite correlation_value_affine_l by assumption. reflexivity.
    - rewrite length_affine. exact Hlen.
    - rewrite length_affine. exact Hn.
    - apply Sxx_affine_nonzero; assumption.
    - exact Hyy. }
  assert (Hr : a <> 0 ->
               correlation x (affine a b y)
               = Ok (a / Rabs a * correlation_value x y)).
  { intros Ha. rewrite correlation_exact.
    - rewrite correlation_value_affine_r by assumption. reflexivity.
    - rewrite length_affine. exact Hlen.
    - exact Hn.
    - exact Hxx.
    - apply Sxx_affine_nonzero; assumption. }
  split; intros Ha.
  - rewrite Hl, Hr by lra. rewrite sign_pos by exact Ha.
    split; f_equal; lra.
  - rewrite Hl, Hr by lra. rewrite sign_neg by exact Ha.
    split; f_equal; lra.
Qed.

Lemma self_correlation_value (x : list R) :
  (2 <= length x)%nat -> ~ constant x ->
  correlation x x = Ok (INR (length x) / (INR (length x) - 1)).
Proof.
  intros Hn Hx. pose proof (nonconstant_Sxx x Hx) as Hxx.
  rewrite correlation_exact by auto.
  rewrite correlation_value_self by assumption. reflexivity.
Qed.

(** C10. For a non-constant sequence [x] of length [n >= 2],
    [correlation x x] is [n / (n - 1)]: the covariance divides by
    [n - 1], the standard deviation by [n]. *)
Theorem correlation_self (x : list R) :
  (2 <= length x)%nat -> ~ constant x ->
  correlation x x = Ok (INR (length x) / (INR (length x) - 1)).
Proof.
  intros Hn Hx. pose proof (nonconstant_Sxx x Hx) as Hxx.
  rewrite correlation_exact by auto.
  rewrite correlation_value_self by assumption. reflexivity.
Qed.

Lemma two_nonconstant (p q : R) (l : list R) : p <> q -> ~ constant (p :: q :: l).
Proof.
  intros Hpq Hc. apply Hpq, Hc; simpl; auto.
Qed.

Lemma correlation_affine_witness :
  exists r : R,
    correlation [1; 2] [3; 7] = Ok r /\
    (0 < 2 -> correlation (affine 2 1 [1; 2]) [3; 7] = Ok r /\
              correlation [1; 2] (affine 2 1 [3; 7]) = Ok r) /\
    (2 < 0 -> correlation (affine 2 1 [1; 2]) [3; 7] = Ok (- r) /\
              correlation [1; 2] (affine 2 1 [3; 7]) = Ok (- r)).
Proof.
  apply (correlation_affine [1; 2] [3; 7] 2 1);
    [reflexivity | simpl; lia | apply two_nonconstant; lra
    | apply two_nonconstant; lra].
Defined.

(** The exact image and the computed image are the same function in exact
    arithmetic. *)
Lemma affine_transform_exact (a b : R) (x : list R) :
  @affine_transform R exact a b x = affine a b x.
Proof. reflexivity. Qed.

(** The claim of C9 as written fails in binary64: with [a = 1 > 0] and
    [b = 2^60] the image of the non-constant [[1, 2]] is the constant
    [[2^60, 2^60]], the shift having absorbed both elements, so
    [correlation] divides by zero on the image while it returns [2] on the
    sequence itself. *)
Lemma affine_shift_absorbed_binary64 :
  let x := map Binary64.of_Z [1; 2]%Z in
  let y := map Binary64.of_Z [3; 5]%Z in
  let a := Binary64.of_Z 1 in
  let b := @ldexp _ Binary64.arith 1 60 in
  length x = length y /\ (2 <= length x)%nat /\
  nth 0 x (S754_zero false) <> nth 1 x (S754_zero false) /\
  nth 0 y (S754_zero false) <> nth 1 y (S754_zero false) /\
  @flt _ Binary64.arith (of_int 0%Z) a = true /\
  @affine_transform _ Binary64.arith a b x = [b; b] /\
  @correlation _ Binary64.arith x y = Ok (Binary64.of_Z 2) /\
  @correlation _ Binary64.arith (@affine_transform _ Binary64.arith a b x) y
  = Raise ZeroDivisionError /\
  @correlation _ Binary64.arith (@affine_transform _ Binary64.arith a b x) y
  <> @correlation _ Binary64.arith x y.
Proof.
  cbv zeta. repeat apply conj; try (vm_compute; reflexivity);
    vm_compute; discriminate.
Qed.

Lemma correlation_self_witness :
  correlation [1; 2; 4] [1; 2; 4] = Ok (INR (length [1; 2; 4]) / (INR (length [1; 2; 4]) - 1)).
Proof.
  apply (correlation_self [1; 2; 4]); [simpl; lia | apply two_nonconstant; lra].
Defined.

(** *** The notebook's sequences, evaluated *)

Lemma Rabs_two : Rabs 2 = 2.
Proof. apply Rabs_right. lra. Qed.

Lemma Rabs_minus_two : Rabs (- 2) = 2.
Proof. rewrite Rabs_left by lra. lra. Qed.

Lemma correlation_of_affine_image (a b : R) (x : list R) :
  (2 <= length x)%nat -> ~ constant x -> a <> 0 ->
  correlation x (affine a b x)
  = Ok (a / Rabs a * (INR (length x) / (INR (length x) - 1))).
Proof.
  intros Hn Hx Ha. pose proof (nonconstant_Sxx x Hx) as Hxx.
  assert (Hx0 : x <> []) by (intros ->; apply Hxx; reflexivity).
  rewrite correlation_exact.
  - rewrite correlation_value_affine_r by assumption.
    rewrite correlation_value_self by assumption. reflexivity.
  - rewrite length_affine. reflexivity.
  - exact Hn.
  - exact Hxx.
  - apply Sxx_affine_nonzero; assumption.
Qed.

(** C2. On [x = [1, 2, 3]] the call [correlation(x, x)] returns [1.5], in
    exact arithmetic and in binary64, not [1.0]. *)
Theorem self_correlation_is_not_one :
  correlation [1; 2; 3] [1; 2; 3] = Ok (3 / 2) /\
  @correlation _ Binary64.arith
     (map Binary64.of_Z [1; 2; 3]%Z) (map Binary64.of_Z [1; 2; 3]%Z)
  = Ok (S754_finite false 6755399441055743 (-52)) /\
  Binary64.to_R (S754_finite false 6755399441055743 (-52)) - 1 > 49 / 100.
Proof.
  split; [| split].
  - rewrite (self_correlation_value [1; 2; 3]).
    + f_equal. simpl. lra.
    + simpl; lia.
    + apply two_nonconstant; lra.
  - vm_compute. reflexivity.
  - unfold Binary64.to_R. simpl. lra.
Qed.

Ltac list_of_reals := repeat (apply f_equal2; [lra |]); reflexivity.

(** C3. On the non-constant sequences [x = [1, 2]], [y = [3, 5]] the call
    [correlation(x, y)] returns [2], and on [y = [5, 3]] it returns [-2],
    in exact arithmetic and in binary64: values outside [[-1, 1]]. *)
Theorem correlation_outside_unit_interval :
  correlation [1; 2] [3; 5] = Ok 2 /\
  correlation [1; 2] [5; 3] = Ok (- 2) /\
  ~ (-1 <= 2 <= 1) /\ ~ (-1 <= - 2 <= 1) /\
  @correlation _ Binary64.arith
     (map Binary64.of_Z [1; 2]%Z) (map Binary64.of_Z [3; 5]%Z)
  = Ok (Binary64.of_Z 2) /\
  @correlation _ Binary64.arith
     (map Binary64.of_Z [1; 2]%Z) (map Binary64.of_Z [5; 3]%Z)
  = Ok (Binary64.of_Z (-2)).
Proof.
  assert (Hx : ~ constant [1; 2]) by (apply two_nonconstant; lra).
  repeat apply conj.
  - replace [3; 5] with (affine 2 1 [1; 2]) by (unfold affine; simpl; list_of_reals).
    rewrite correlation_of_affine_image by (simpl; lia || assumption || lra).
    f_equal. rewrite Rabs_two. simpl. lra.
  - replace [5; 3] with (affine (- 2) 7 [1; 2]) by (unfold affine; simpl; list_of_reals).
    rewrite correlation_of_affine_image by (simpl; lia || assumption || lra).
    f_equal. rewrite Rabs_minus_two. simpl. lra.
  - lra.
  - lra.
  - vm_compute. reflexivity.
  - vm_compute. reflexivity.
Qed.

(** C4. On [x = [1, 2, 3, 4, 5]] and [y = [2, 4, 6, 8, 10]],
    [covariance(x, y)] returns [5.0] and [correlation(x, y)] returns [1.25]
    ([1.2499999999999998] in binary64); on [y = [10, 8, 6, 4, 2]],
    [correlation(x, y)] returns [-1.25]. *)
Theorem notebook_scenarios :
  covariance [1; 2; 3; 4; 5] [2; 4; 6; 8; 10] = Ok 5 /\
  correlation [1; 2; 3; 4; 5] [2; 4; 6; 8; 10] = Ok (5 / 4) /\
  correlation [1; 2; 3; 4; 5] [10; 8; 6; 4; 2] = Ok (- (5 / 4)) /\
  @covariance _ Binary64.arith
     (map Binary64.of_Z [1; 2; 3; 4; 5]%Z) (map Binary64.of_Z [2; 4; 6; 8; 10]%Z)
  = Ok (Binary64.of_Z 5) /\
  @correlation _ Binary64.arith
     (map Binary64.of_Z [1; 2; 3; 4; 5]%Z) (map Binary64.of_Z [2; 4; 6; 8; 10]%Z)
  = Ok (S754_finite false 5629499534213119 (-52)) /\
  @correlation _ Binary64.arith
     (map Binary64.of_Z [1; 2; 3; 4; 5]%Z) (map Binary64.of_Z [10; 8; 6; 4; 2]%Z)
  = Ok (S754_finite true 5629499534213119 (-52)) /\
  Binary64.to_R (S754_finite false 5629499534213119 (-52)) - 1 > 24 / 100 /\
  Binary64.to_R (S754_finite true 5629499534213119 (-52)) - (- 1) < - (24 / 100).
Proof.
  assert (Hx : ~ constant [1; 2; 3; 4; 5]) by (apply two_nonconstant; lra).
  repeat apply conj.
  - rewrite covariance_exact by (reflexivity || (simpl; lia)).
    f_equal. unfold Sxy, deviations, Rmean. simpl. lra.
  - replace [2; 4; 6; 8; 10] with (affine 2 0 [1; 2; 3; 4; 5])
      by (unfold affine; simpl; list_of_reals).
    rewrite correlation_of_affine_image by (simpl; lia || assumption || lra).
    f_equal. rewrite Rabs_two. simpl. lra.
  - replace [10; 8; 6; 4; 2] with (affine (- 2) 12 [1; 2; 3; 4; 5])
      by (unfold affine; simpl; list_of_reals).
    rewrite correlation_of_affine_image by (simpl; lia || assumption || lra).
    f_equal. rewrite Rabs_minus_two. simpl. lra.
  - vm_compute. reflexivity.
  - vm_compute. reflexivity.
  - vm_compute. reflexivity.
  - unfold Binary64.to_R. simpl. lra.
  - unfold Binary64.to_R. simpl. lra.
Qed.

End StatementsB.

(** ** Procedure A: dictionaries of counters *)

Section Counters.
Local Open Scope Z_scope.

Lemma total_count_empty : total_count ∅ = 0.
Proof. unfold total_count. apply map_fold_empty. Qed.

Lemma total_count_insert_fresh (d : gmap Z Z) (k v : Z) :
  d !! k = None -> total_count (<[k := v]> d) = v + total_count d.
Proof.
  intros Hk. unfold total_count.
  rewrite map_fold_insert_L; [reflexivity | intros; lia | exact Hk].
Qed.

Lemma total_count_insert (d : gmap Z Z) (k v w : Z) :
  d !! k = Some v -> total_count (<[k := w]> d) = total_count d - v + w.
Proof.
  intros Hk.
  rewrite <- (insert_delete_id d k v Hk) at 2.
  rewrite <- (insert_delete_eq d k w).
  rewrite !total_count_insert_fresh by apply lookup_delete_eq. lia.
Qed.

Lemma total_count_all_zero (d : gmap Z Z) :
  (forall k v, d !! k = Some v -> v = 0) -> total_count d = 0.
Proof.
  induction d as [|k v d Hk IH] using map_ind; intros Hz.
  - apply total_count_empty.
  - rewrite total_count_insert_fresh by exact Hk.
    rewrite IH.
    + rewrite (Hz k v) by apply lookup_insert_eq. reflexivity.
    + intros j w Hj. apply (Hz j).
      rewrite lookup_insert_ne; [exact Hj | intros ->; congruence].
Qed.

Lemma lookup_zero_counts (labels : list Z) (k v : Z) :
  zero_counts labels !! k = Some v -> v = 0.
Proof.
  intros Hk. apply elem_of_list_to_map_2 in Hk.
  apply list_elem_of_fmap in Hk as (j & Hj & _). congruence.
Qed.

Lemma dom_zero_counts (labels : list Z) :
  dom (zero_counts labels) = list_to_set labels.
Proof.
  unfold zero_counts. rewrite dom_list_to_map_L.
  rewrite <- list_fmap_compose. f_equal.
  induction labels as [|a l IH]; [reflexivity |].
  simpl. f_equal. exact IH.
Qed.

Lemma initial_invariant (labels : list Z) :
  tally_invariant labels 0 (initial labels).
Proof.
  unfold tally_invariant, initial; simpl. repeat apply conj.
  - apply dom_zero_counts.
  - apply dom_zero_counts.
  - intros L p t Hp Ht.
    apply lookup_zero_counts in Hp, Ht. lia.
  - apply total_count_all_zero, lookup_zero_counts.
  - apply total_count_all_zero, lookup_zero_counts.
Qed.

Lemma dict_get_Some (d : gmap Z Z) (k v : Z) :
  d !! k = Some v -> dict_get d k = Ok v.
Proof. intros Hk. unfold dict_get. rewrite Hk. reflexivity. Qed.

Lemma dict_get_None (d : gmap Z Z) (k : Z) :
  d !! k = None -> dict_get d k = Raise (KeyError k).
Proof. intros Hk. unfold dict_get. rewrite Hk. reflexivity. Qed.

Lemma dict_incr_Some (d : gmap Z Z) (k v : Z) :
  d !! k = Some v -> dict_incr d k = Ok (<[k := v + 1]> d).
Proof. intros Hk. unfold dict_incr. rewrite (dict_get_Some d k v Hk). reflexivity. Qed.

Lemma lookup_incr (d : gmap Z Z) (k v j : Z) :
  d !! k = Some v ->
  <[k := v + 1]> d !! j =
    if decide (j = k) then (fun v => v + 1) <$> d !! j else d !! j.
Proof.
  intros Hk. destruct (decide (j = k)) as [-> | Hne].
  - rewrite lookup_insert_eq, Hk. reflexivity.
  - rewrite lookup_insert_ne by congruence. reflexivity.
Qed.

Lemma choice_spec (labels : list Z) (w : Z) :
  labels <> [] ->
  exists label : Z, choice labels w = Ok label /\ label ∈ labels.
Proof.
  intros Hl. destruct labels as [|d l]; [congruence |].
  eexists. split; [reflexivity |].
  apply list_elem_of_In, nth_In.
  pose proof (Z.mod_pos_bound w (Z.of_nat (length (d :: l)))) as Hb.
  simpl length in *. lia.
Qed.

End Counters.

(** ** Procedure A: the generation loop, over any arithmetic in which the
    division by [100.0] is defined *)

Section Loop.
Context {T : Type} `{Arith T}.
Hypothesis percent_defined :
  forall L : Z, exists q : T, fdiv (of_int L) (of_int 100%Z) = Ok q.

Local Open Scope Z_scope.

Lemma body_spec (labels : list Z) (rng : tape) (st : state) :
  labels <> [] ->
  dom (totals st) = list_to_set labels ->
  dom (purchases st) = list_to_set labels ->
  exists st' : state,
    body labels rng st = Ok st' /\ iteration_spec labels rng st st'.
Proof.
  intros Hl Ht Hp.
  destruct (choice_spec labels (rng (cursor st)) Hl) as (label & Hc & Hin).
  destruct (percent_defined label) as (prob & Hprob).
  assert (Hts : is_Some (totals st !! label))
    by (apply elem_of_dom; rewrite Ht; apply elem_of_list_to_set, Hin).
  assert (Hps : is_Some (purchases st !! label))
    by (apply elem_of_dom; rewrite Hp; apply elem_of_list_to_set, Hin).
  destruct Hts as [t Htl], Hps as [p Hpl].
  unfold body. rewrite Hc, bind_Ok, Hprob, bind_Ok.
  rewrite (dict_incr_Some _ _ _ Htl), bind_Ok.
  destruct (flt (random_sample (rng (S (cursor st)))) prob) eqn:Hbuy.
  - rewrite (dict_incr_Some _ _ _ Hpl), bind_Ok.
    eexists. split; [reflexivity |].
    exists label, prob. rewrite Hbuy. simpl.
    repeat apply conj; eauto.
    + intros k. apply lookup_incr, Htl.
    + intros k. rewrite (lookup_incr _ _ _ _ Hpl).
      destruct (decide (k = label)) as [-> | Hne].
      * rewrite bool_decide_eq_true_2 by reflexivity. reflexivity.
      * rewrite bool_decide_eq_false_2 by exact Hne. reflexivity.
  - eexists. split; [reflexivity |].
    exists label, prob. rewrite Hbuy. simpl.
    repeat apply conj; eauto.
    intros k. apply lookup_incr, Htl.
Qed.

Lemma iteration_preserves (labels : list Z) (rng : tape) (n : nat)
    (st st' : state) :
  tally_invariant labels n st -> iteration_spec labels rng st st' ->
  tally_invariant labels (S n) st'.
Proof.
  intros (Hdt & Hdp & Hle & Hsum & Hbuy)
         (label & prob & _ & _ & _ & _ & [t Ht] & [p Hp] & Htot & Hpur & Hagg).
  assert (Et : totals st' = <[label := t + 1]> (totals st)).
  { apply map_eq. intros k. rewrite Htot, (lookup_incr _ _ _ _ Ht). reflexivity. }
  pose proof (Hle label p t Hp Ht) as Hpt.
  destruct (flt (random_sample (rng (S (cursor st)))) prob).
  - assert (Ep : purchases st' = <[label := p + 1]> (purchases st)).
    { apply map_eq. intros k. rewrite Hpur, (lookup_incr _ _ _ _ Hp). simpl.
      destruct (decide (k = label)) as [-> | Hne].
      - rewrite bool_decide_eq_true_2 by reflexivity. reflexivity.
      - rewrite bool_decide_eq_false_2 by exact Hne. reflexivity. }
    unfold tally_invariant. rewrite Et, Ep, Hagg. repeat apply conj.
    + rewrite dom_insert_lookup_L by eauto. exact Hdt.
    + rewrite dom_insert_lookup_L by eauto. exact Hdp.
    + intros L p' t'. destruct (decide (L = label)) as [-> | Hne].
      * rewrite !lookup_insert_eq. intros [= <-] [= <-]. lia.
      * rewrite !lookup_insert_ne by congruence. apply Hle.
    + rewrite (total_count_insert _ _ _ _ Ht). lia.
    + rewrite (total_count_insert _ _ _ _ Hp). lia.
  - assert (Ep : purchases st' = purchases st).
    { apply map_eq. intros k. rewrite Hpur. reflexivity. }
    unfold tally_invariant. rewrite Et, Ep, Hagg. repeat apply conj.
    + rewrite dom_insert_lookup_L by eauto. exact Hdt.
    + exact Hdp.
    + intros L p' t'. destruct (decide (L = label)) as [-> | Hne].
      * rewrite lookup_insert_eq, Hp. intros [= <-] [= <-]. lia.
      * rewrite lookup_insert_ne by congruence. apply Hle.
    + rewrite (total_count_insert _ _ _ _ Ht). lia.
    + exact Hbuy.
Qed.

Lemma iterate_add (a b : nat) (labels : list Z) (rng : tape) (st : state) :
  iterate (a + b) labels rng st
  = (iterate a labels rng st ≫= iterate b labels rng).
Proof.
  revert st; induction a as [|a IH]; intros st; simpl; [reflexivity |].
  destruct (body labels rng st) as [st' | e]; simpl; [apply IH | reflexivity].
Qed.

Lemma iterate_invariant (labels : list Z) (rng : tape) (n k : nat) (st : state) :
  labels <> [] -> tally_invariant labels k st ->
  exists st' : state,
    iterate n labels rng st = Ok st' /\ tally_invariant labels (k + n) st'.
Proof.
  intros Hl. revert k st; induction n as [|n IH]; intros k st Hinv.
  - exists st. split; [reflexivity |]. rewrite Nat.add_0_r. exact Hinv.
  - destruct (body_spec labels rng st Hl) as (st1 & Hb & Hspec);
      [apply Hinv | apply Hinv |].
    pose proof (iteration_preserves labels rng k st st1 Hinv Hspec) as Hinv1.
    destruct (IH (S k) st1 Hinv1) as (st' & Hit & Hinv').
    exists st'. split.
    + simpl. rewrite Hb, bind_Ok. exact Hit.
    + replace (k + S n)%nat with (S k + n)%nat by lia. exact Hinv'.
Qed.

(** The run of [N] iterations passes through the state reached after any
    [n <= N] of them. *)
Lemma simulate_prefix (labels : list Z) (rng : tape) (n N : nat) :
  labels <> [] -> (n <= N)%nat ->
  exists st final : state,
    simulate labels n rng = Ok st /\
    iterate (N - n) labels rng st = Ok final /\
    simulate labels N rng = Ok final /\
    tally_invariant labels n st /\
    tally_invariant labels N final.
Proof.
  intros Hl Hn.
  destruct (iterate_invariant labels rng n 0 (initial labels) Hl
              (initial_invariant labels)) as (st & Hst & Hinv).
  destruct (iterate_invariant labels rng (N - n) n st Hl Hinv)
    as (final & Hfin & Hinvf).
  exists st, final. unfold simulate.
  replace (n + (N - n))%nat with N in Hinvf by lia.
  split; [exact Hst |]. split; [exact Hfin |].
  split; [| split; [exact Hinv | exact Hinvf]].
  replace N with (n + (N - n))%nat at 1 by lia.
  rewrite iterate_add, Hst, bind_Ok. exact Hfin.
Qed.

End Loop.

(** ** The two arithmetics define the division by [100.0] *)

Lemma exact_percent_defined (L : Z) :
  exists q : R, @fdiv R exact (of_int L) (of_int 100%Z) = Ok q.
Proof.
  eexists. simpl. apply Rdiv_checked_ok. lra.
Qed.

Lemma binary64_percent_defined (L : Z) :
  exists q : spec_float,
    @fdiv spec_float Binary64.arith (of_int L) (of_int 100%Z) = Ok q.
Proof.
  eexists. simpl. unfold Binary64.div_checked.
  replace (Binary64.is_zero (Binary64.of_Z 100)) with false
    by (vm_compute; reflexivity).
  reflexivity.
Qed.

(** Four iterations in binary64 on [sample_tape]: the labels drawn are
    30, 50, 30, 70 and the samples 0.5, 0.25, 0.125, 1 - 2^-53. *)
Example sample_tape_run :
  exists st : state,
    @simulate spec_float Binary64.arith ages 4 sample_tape = Ok st /\
    totals st !! 30%Z = Some 2%Z /\ purchases st !! 30%Z = Some 1%Z /\
    totals st !! 50%Z = Some 1%Z /\ purchases st !! 50%Z = Some 1%Z /\
    totals st !! 70%Z = Some 1%Z /\ purchases st !! 70%Z = Some 0%Z /\
    totals st !! 20%Z = Some 0%Z /\
    totalPurchases st = 2%Z /\ cursor st = 8%nat.
Proof.
  eexists. split; [vm_compute; reflexivity |].
  repeat apply conj; vm_compute; reflexivity.
Qed.

(** The derived probabilities of label 30 in that state, in binary64: both
    the conditional probability and the quotient of joint and marginal are
    0.5. *)
Example sample_state_probabilities :
  @PEF spec_float Binary64.arith sample_state 30%Z
  = Ok (S754_finite false 4503599627370496 (-53)) /\
  @joint_over_marginal spec_float Binary64.arith sample_state 30%Z 4
  = Ok (S754_finite false 4503599627370496 (-53)).
Proof. split; vm_compute; reflexivity. Qed.

(** The notebook's run: 100000 iterations over the six labels never fault,
    whatever the generator yields, and the tallies add up to 100000. *)
Corollary notebook_run (rng : tape) :
  exists st : state,
    @simulate R exact ages population rng = Ok st /\
    total_count (totals st) = 100000%Z /\
    total_count (purchases st) = totalPurchases st.
Proof.
  destruct (simulate_prefix exact_percent_defined ages rng population population
              ltac:(discriminate) (le_n _))
    as (st & _ & Hst & _ & _ & (_ & _ & _ & Hsum & Hbuy) & _).
  exists st. split; [exact Hst |]. split; [| exact Hbuy].
  rewrite Hsum. unfold population. apply Z2Nat.id. lia.
Qed.

(** ** Procedure A: the statements *)

(** C5. Over any arithmetic in which the division by [100.0] is defined,
    for every non-empty label set, every population size [N] and every
    [n <= N]: the loop reaches a state after [n] iterations and goes on
    from it to the final state of the run of [N] iterations; in the state
    after [n] iterations (so also in the final one, [n = N]), [totals] and
    [purchases] have the labels as their key set, [0 <= purchases[L] <=
    totals[L]] for every key, the totals add up to [n] and the purchases
    to [totalPurchases].  The notebook's labels are {20, ..., 70}. *)
Theorem tallies_invariant {T : Type} `{Arith T}
    (labels : list Z) (N n : nat) (rng : tape) :
  (forall L : Z, exists q : T, fdiv (of_int L) (of_int 100%Z) = Ok q) ->
  labels <> [] -> (n <= N)%nat ->
  exists st final : state,
    simulate labels n rng = Ok st /\
    iterate (N - n) labels rng st = Ok final /\
    simulate labels N rng = Ok final /\
    dom (totals st) = list_to_set labels /\
    dom (purchases st) = list_to_set labels /\
    (forall L : Z, L ∈ labels ->
       exists p t : Z,
         purchases st !! L = Some p /\ totals st !! L = Some t /\
         (0 <= p <= t)%Z) /\
    total_count (totals st) = Z.of_nat n /\
    total_count (purchases st) = totalPurchases st /\
    list_to_set ages =@{gset Z} {[20; 30; 40; 50; 60; 70]}%Z.
Proof.
  intros Hdiv Hl Hn.
  destruct (simulate_prefix Hdiv labels rng n N Hl Hn)
    as (st & final & Hst & Hfin & Hrun & (Hdt & Hdp & Hle & Hsum & Hbuy) & _).
  exists st, final. repeat apply conj; try assumption.
  - intros L HL.
    assert (Hts : is_Some (totals st !! L))
      by (apply elem_of_dom; rewrite Hdt; apply elem_of_list_to_set, HL).
    assert (Hps : is_Some (purchases st !! L))
      by (apply elem_of_dom; rewrite Hdp; apply elem_of_list_to_set, HL).
    destruct Hts as [t Ht], Hps as [p Hp]. exists p, t. eauto.
  - unfold ages. set_solver.
Qed.

Lemma tallies_invariant_witness :
  exists st final : state,
    @simulate R exact ages 2 sample_tape = Ok st /\
    @iterate R exact (4 - 2) ages sample_tape st = Ok final /\
    @simulate R exact ages 4 sample_tape = Ok final /\
    dom (totals st) = list_to_set ages /\
    dom (purchases st) = list_to_set ages /\
    (forall L : Z, L ∈ ages ->
       exists p t : Z,
         purchases st !! L = Some p /\ totals st !! L = Some t /\
         (0 <= p <= t)%Z) /\
    total_count (totals st) = Z.of_nat 2 /\
    total_count (purchases st) = totalPurchases st /\
    list_to_set ages =@{gset Z} {[20; 30; 40; 50; 60; 70]}%Z.
Proof.
  apply (@tallies_invariant R exact ages 4 2 sample_tape);
    [exact exact_percent_defined | discriminate | lia].
Defined.

(** *** Exact readings of the arithmetic in the loop body *)

Section ExactReadings.
Local Open Scope R_scope.

Lemma pow2_53 : 2 ^ 53 = 9007199254740992.
Proof. simpl. lra. Qed.

Lemma powerRZ_minus_53 : powerRZ 2 (-53) = / 9007199254740992.
Proof. unfold powerRZ. f_equal. rewrite <- pow2_53. f_equal. Qed.

Lemma exact_percent (L : Z) :
  @fdiv R exact (of_int L) (of_int 100%Z) = Ok (IZR L / 100).
Proof. simpl. apply Rdiv_checked_ok. lra. Qed.

Lemma exact_random_sample_range (w : Z) : 0 <= @random_sample R exact w < 1.
Proof.
  change (@random_sample R exact w)
    with (IZR (w mod 2 ^ 53) * powerRZ 2 (-53)).
  pose proof (Z.mod_pos_bound w (2 ^ 53) ltac:(lia)) as [Hlo Hhi].
  apply IZR_le in Hlo. apply IZR_lt in Hhi.
  change (2 ^ 53)%Z with 9007199254740992%Z in *.
  rewrite powerRZ_minus_53.
  set (m := IZR (w mod 9007199254740992)) in *.
  split.
  - apply Rmult_le_pos; [exact Hlo | lra].
  - apply (Rmult_lt_reg_r 9007199254740992); [lra |].
    replace (m * / 9007199254740992 * 9007199254740992) with m by (field; lra).
    lra.
Qed.

Lemma exact_random_sample_value (w : Z) :
  @random_sample R exact w = IZR (w mod 2 ^ 53) / 9007199254740992.
Proof.
  change (@random_sample R exact w)
    with (IZR (w mod 2 ^ 53) * powerRZ 2 (-53)).
  rewrite powerRZ_minus_53. reflexivity.
Qed.

Lemma exact_random_sample_distinct (w w' : Z) :
  @random_sample R exact w = @random_sample R exact w' <->
  (w mod 2 ^ 53 = w' mod 2 ^ 53)%Z.
Proof.
  rewrite !exact_random_sample_value. split.
  - intros Heq. apply eq_IZR. unfold Rdiv in Heq.
    apply Rmult_eq_reg_r in Heq; [exact Heq | lra].
  - intros ->. reflexivity.
Qed.

Lemma exact_flt (u p : R) : @flt R exact u p = true <-> u < p.
Proof.
  simpl. destruct (Rlt_dec u p); split; intros; auto; discriminate.
Qed.

End ExactReadings.

(** *** The choice among the notebook's labels *)

Lemma choice_ages (w : Z) :
  choice ages w = Ok (nth (Z.to_nat (w mod 6)) ages 0%Z).
Proof.
  unfold choice, ages. f_equal. apply nth_indep.
  pose proof (Z.mod_pos_bound w 6 ltac:(lia)). simpl. lia.
Qed.

Lemma ages_one_index_each (L : Z) :
  L ∈ ages ->
  exists i : nat, (i < 6)%nat /\ nth i ages 0%Z = L /\
    forall j : nat, (j < 6)%nat -> nth j ages 0%Z = L -> j = i.
Proof.
  unfold ages. intros HL.
  repeat (apply elem_of_cons in HL as [-> | HL]);
    [exists 0%nat | exists 1%nat | exists 2%nat | exists 3%nat | exists 4%nat
    | exists 5%nat | apply elem_of_nil in HL; contradiction];
    (split; [lia | split; [reflexivity |]]);
    intros j Hj;
    do 6 (destruct j as [|j]; [simpl; intros; (reflexivity || lia) |]); lia.
Qed.

(** C7. Over any arithmetic in which the division by [100.0] is defined,
    the [n]-th of the [N] iterations of the generation loop takes the state
    after [n] iterations to the state after [n + 1] by [body], as
    [iteration_spec] describes: a label of {20, ..., 70} is chosen, its
    success probability is the label divided by 100, the individual
    purchases exactly when the sample is below that probability,
    [totals[label]] grows by one, and [purchases[label]] and
    [totalPurchases] grow by one exactly on a purchase.  The label is the
    one at the index drawn in [0, 6), each label having one index.  The
    sample is the generator word reduced to 53 bits and scaled by [2^-53].
    In exact arithmetic the probability is [label / 100], the sample of the
    word [w] is [(w mod 2^53) / 2^53], so two words give the same sample
    exactly when they agree modulo [2^53], it lies in [[0, 1)], and the
    comparison is the strict order. *)
Theorem generation_loop_iteration {T : Type} `{Arith T}
    (N n : nat) (rng : tape) :
  (forall L : Z, exists q : T, fdiv (of_int L) (of_int 100%Z) = Ok q) ->
  (n < N)%nat ->
  (exists st st' final : state,
      simulate ages n rng = Ok st /\
      body ages rng st = Ok st' /\
      simulate ages (S n) rng = Ok st' /\
      iterate (N - S n) ages rng st' = Ok final /\
      simulate ages N rng = Ok final /\
      iteration_spec ages rng st st') /\
  (forall w : Z, choice ages w = Ok (nth (Z.to_nat (w mod 6)) ages 0%Z)) /\
  (forall L : Z, L ∈ ages ->
     exists i : nat, (i < 6)%nat /\ nth i ages 0%Z = L /\
       forall j : nat, (j < 6)%nat -> nth j ages 0%Z = L -> j = i) /\
  (forall w : Z, @random_sample T _ w = ldexp (w mod 2 ^ 53)%Z (-53)%Z) /\
  (forall L : Z,
     @fdiv R exact (of_int L) (of_int 100%Z) = Ok (IZR L / 100)%R) /\
  (forall w : Z,
     @random_sample R exact w
     = (IZR (w mod 2 ^ 53) / 9007199254740992)%R) /\
  (forall w w' : Z,
     @random_sample R exact w = @random_sample R exact w' <->
     (w mod 2 ^ 53 = w' mod 2 ^ 53)%Z) /\
  (forall w : Z, (0 <= @random_sample R exact w < 1)%R) /\
  (forall u p : R, @flt R exact u p = true <-> (u < p)%R).
Proof.
  intros Hdiv Hn.
  split; [| repeat apply conj;
              auto using choice_ages, ages_one_index_each, exact_percent,
                exact_random_sample_value, exact_random_sample_range;
              [apply exact_random_sample_distinct | apply exact_flt]].
  assert (Hl : ages <> []) by discriminate.
  destruct (simulate_prefix Hdiv ages rng n N Hl ltac:(lia))
    as (st & _ & Hst & _ & _ & Hinv & _).
  destruct (body_spec Hdiv ages rng st Hl) as (st' & Hb & Hspec);
    [apply Hinv | apply Hinv |].
  assert (Hnext : simulate ages (S n) rng = Ok st').
  { unfold simulate in *. replace (S n) with (n + 1)%nat by lia.
    rewrite iterate_add, Hst, bind_Ok. simpl. rewrite Hb. reflexivity. }
  destruct (simulate_prefix Hdiv ages rng (S n) N Hl ltac:(lia))
    as (st1 & final & Hst1 & Hfin & Hrun & _).
  rewrite Hnext in Hst1. injection Hst1 as <-.
  exists st, st', final. repeat apply conj; assumption.
Qed.

Lemma generation_loop_iteration_witness :
  (exists st st' final : state,
      @simulate R exact ages 1 sample_tape = Ok st /\
      @body R exact ages sample_tape st = Ok st' /\
      @simulate R exact ages 2 sample_tape = Ok st' /\
      @iterate R exact (4 - 2) ages sample_tape st' = Ok final /\
      @simulate R exact ages 4 sample_tape = Ok final /\
      @iteration_spec R exact ages sample_tape st st') /\
  (forall w : Z, choice ages w = Ok (nth (Z.to_nat (w mod 6)) ages 0%Z)) /\
  (forall L : Z, L ∈ ages ->
     exists i : nat, (i < 6)%nat /\ nth i ages 0%Z = L /\
       forall j : nat, (j < 6)%nat -> nth j ages 0%Z = L -> j = i) /\
  (forall w : Z, @random_sample R exact w = @ldexp R exact (w mod 2 ^ 53)%Z (-53)%Z) /\
  (forall L : Z,
     @fdiv R exact (of_int L) (of_int 100%Z) = Ok (IZR L / 100)%R) /\
  (forall w : Z,
     @random_sample R exact w
     = (IZR (w mod 2 ^ 53) / 9007199254740992)%R) /\
  (forall w w' : Z,
     @random_sample R exact w = @random_sample R exact w' <->
     (w mod 2 ^ 53 = w' mod 2 ^ 53)%Z) /\
  (forall w : Z, (0 <= @random_sample R exact w < 1)%R) /\
  (forall u p : R, @flt R exact u p = true <-> (u < p)%R).
Proof.
  apply (@generation_loop_iteration R exact 4 1 sample_tape);
    [exact exact_percent_defined | lia].
Defined.

(** ** The derived probabilities *)

Section Probabilities.
Local Open Scope R_scope.

Lemma PEF_exact (st : state) (L p t : Z) :
  purchases st !! L = Some p -> totals st !! L = Some t -> t <> 0%Z ->
  @PEF R exact st L = Ok (IZR p / IZR t).
Proof.
  intros Hp Ht Hnz. unfold PEF.
  rewrite (dict_get_Some _ _ _ Hp), bind_Ok, (dict_get_Some _ _ _ Ht), bind_Ok.
  simpl. apply Rdiv_checked_ok. intros Hz. apply eq_IZR_R0 in Hz. contradiction.
Qed.

Lemma PEF_zero_tally (st : state) (L p : Z) :
  purchases st !! L = Some p -> totals st !! L = Some 0%Z ->
  @PEF R exact st L = Raise ZeroDivisionError.
Proof.
  intros Hp Ht. unfold PEF.
  rewrite (dict_get_Some _ _ _ Hp), bind_Ok, (dict_get_Some _ _ _ Ht), bind_Ok.
  simpl. apply Rdiv_checked_zero.
Qed.

Lemma joint_over_marginal_exact (st : state) (L p t : Z) (n : nat) :
  purchases st !! L = Some p -> totals st !! L = Some t -> t <> 0%Z ->
  n <> 0%nat ->
  @joint_over_marginal R exact st L n
  = Ok (IZR p / INR n / (IZR t / INR n)).
Proof.
  intros Hp Ht Hnz Hn. unfold joint_over_marginal, joint, PF.
  rewrite (dict_get_Some _ _ _ Hp), bind_Ok, (dict_get_Some _ _ _ Ht).
  assert (HN : INR n <> 0) by (apply not_0_INR; exact Hn).
  assert (HT : IZR t <> 0) by (intros Hz; apply eq_IZR_R0 in Hz; contradiction).
  simpl. rewrite <- INR_IZR_INZ.
  rewrite !Rdiv_checked_ok by assumption. simpl.
  apply Rdiv_checked_ok.
  unfold Rdiv. apply Rmult_integral_contrapositive_currified;
    [exact HT | apply Rinv_neq_0_compat; exact HN].
Qed.

Lemma Rabs_bounds (x b : R) : Rabs x <= b -> - b <= x <= b.
Proof. unfold Rabs. destruct (Rcase_abs x); lra. Qed.

Lemma ratio_of_ratios (p t n : R) :
  t <> 0 -> n <> 0 -> p / n / (t / n) = p / t.
Proof. intros Ht Hn. field. split; assumption. Qed.

End Probabilities.

(** ** Rounded arithmetic obeying the standard model *)

Section StandardModel.
Local Open Scope R_scope.

Variable fl : R -> R.
Hypothesis fl_standard : standard_model fl.

Lemma unit_roundoff_value : unit_roundoff = / 9007199254740992.
Proof. unfold unit_roundoff. rewrite pow2_53. reflexivity. Qed.

Lemma unit_roundoff_small : 0 < unit_roundoff <= / 1000000000000000.
Proof. rewrite unit_roundoff_value. lra. Qed.

Lemma near_weaken (e e' a b : R) :
  0 <= a -> e <= e' -> near e a b -> near e' a b.
Proof. unfold near. intros Ha He [H1 H2]. split; nra. Qed.

Lemma near_nonneg (e a b : R) : 0 <= a -> e <= 1 -> near e a b -> 0 <= b.
Proof. unfold near. intros Ha He [H1 _]. nra. Qed.

Lemma near_round_exact (a : R) : 0 <= a -> near unit_roundoff a (fl a).
Proof.
  intros Ha. pose proof (fl_standard a) as Hs.
  rewrite (Rabs_right a) in Hs by lra.
  apply Rabs_bounds in Hs. unfold near. split; nra.
Qed.

Lemma near_round (e a b : R) :
  0 <= a -> 0 <= e <= 1 -> near e a b ->
  near (e + 2 * unit_roundoff) a (fl b).
Proof.
  intros Ha He Hb.
  pose proof (near_nonneg e a b Ha ltac:(lra) Hb) as Hb0.
  pose proof (near_round_exact b Hb0) as [H1 H2].
  pose proof unit_roundoff_small as [Hu0 Hu1].
  destruct Hb as [H3 H4]. unfold near.
  set (u := unit_roundoff) in *.
  assert (0 <= a * u) by nra.
  assert (0 <= a * e) by nra.
  assert (a * e * u <= a * u) by nra.
  assert (0 <= a * e * u) by nra.
  assert (b * (1 + u) <= a * (1 + e) * (1 + u)) by nra.
  assert (a * (1 - e) * (1 - u) <= b * (1 - u)) by nra.
  split; nra.
Qed.

Lemma near_div (e1 e2 a b a' b' : R) :
  0 <= a -> 0 < b -> 0 <= e1 <= 1 -> 0 <= e2 <= / 2 ->
  near e1 a a' -> near e2 b b' ->
  0 < b' /\ near (2 * (e1 + e2)) (a / b) (a' / b').
Proof.
  intros Ha Hb He1 He2 [Ha1 Ha2] [Hb1 Hb2].
  assert (Hb' : 0 < b') by nra.
  split; [exact Hb' |].
  set (q := a / b).
  assert (Hq : a = q * b) by (unfold q; field; lra).
  assert (Hq0 : 0 <= q).
  { unfold q, Rdiv. apply Rmult_le_pos; [lra |].
    left. apply Rinv_0_lt_compat. lra. }
  unfold near.
  assert (Hup : a' <= q * (1 + 2 * (e1 + e2)) * b').
  { apply Rle_trans with (q * b * (1 + e1)); [rewrite <- Hq; exact Ha2 |].
    apply Rle_trans with (q * (1 + 2 * (e1 + e2)) * (b * (1 - e2))).
    - assert (0 <= q * b) by nra.
      assert ((1 + e1) <= (1 + 2 * (e1 + e2)) * (1 - e2)) by nra.
      nra.
    - apply Rmult_le_compat_l; [nra | exact Hb1]. }
  assert (Hlo : q * (1 - 2 * (e1 + e2)) * b' <= a').
  { apply Rle_trans with (q * b * (1 - e1)); [| rewrite <- Hq; exact Ha1].
    assert (0 <= q * b) by nra.
    destruct (Rle_dec 0 (1 - 2 * (e1 + e2))) as [Hs | Hs].
    - apply Rle_trans with (q * (1 - 2 * (e1 + e2)) * (b * (1 + e2))).
      + apply Rmult_le_compat_l; [nra | exact Hb2].
      + assert ((1 - 2 * (e1 + e2)) * (1 + e2) <= 1 - e1) by nra.
        nra.
    - assert (q * (1 - 2 * (e1 + e2)) * b' <= 0).
      { assert (0 <= q * b') by nra. nra. }
      assert (0 <= q * b * (1 - e1)); [| lra].
      apply Rle_trans with (a * (1 - e1)); [nra | rewrite Hq; lra]. }
  split.
  - apply (Rmult_le_reg_r b'); [exact Hb' |].
    replace (a' / b' * b') with a' by (field; lra). lra.
  - apply (Rmult_le_reg_r b'); [exact Hb' |].
    replace (a' / b' * b') with a' by (field; lra). lra.
Qed.

Lemma near_of_int (z : Z) :
  (0 <= z)%Z -> near unit_roundoff (IZR z) (@of_int R (rounded fl) z).
Proof. intros Hz. apply near_round_exact. apply (IZR_le 0). exact Hz. Qed.

(** A rounded division of approximations of [a >= 0] and [b > 0]. *)
Lemma rounded_div (e1 e2 a b a' b' : R) :
  0 <= a -> 0 < b -> 0 <= e1 -> 0 <= e2 -> e1 + e2 <= / 2 ->
  near e1 a a' -> near e2 b b' ->
  exists q : R,
    @fdiv R (rounded fl) a' b' = Ok q /\
    near (2 * (e1 + e2) + 2 * unit_roundoff) (a / b) q.
Proof.
  intros Ha Hb He1 He2 He Ha' Hb'.
  destruct (near_div e1 e2 a b a' b' Ha Hb ltac:(lra) ltac:(lra) Ha' Hb')
    as [Hpos Hq].
  exists (fl (a' / b')). split.
  - simpl. destruct (Req_dec_T b' 0); [lra | reflexivity].
  - apply near_round; [| lra | exact Hq].
    unfold Rdiv. apply Rmult_le_pos; [exact Ha |].
    left. apply Rinv_0_lt_compat. exact Hb.
Qed.

Lemma PEF_rounded (st : state) (L p t : Z) :
  purchases st !! L = Some p -> totals st !! L = Some t ->
  (0 <= p)%Z -> (0 < t)%Z ->
  exists a : R,
    @PEF R (rounded fl) st L = Ok a /\
    near (6 * unit_roundoff) (IZR p / IZR t) a.
Proof.
  intros Hp Ht Hp0 Ht0. unfold PEF.
  rewrite (dict_get_Some _ _ _ Hp), bind_Ok, (dict_get_Some _ _ _ Ht), bind_Ok.
  pose proof unit_roundoff_small as [Hu0 Hu1].
  destruct (rounded_div unit_roundoff unit_roundoff (IZR p) (IZR t)
              (@of_int R (rounded fl) p) (@of_int R (rounded fl) t))
    as (a & Ha & Hnear);
    try lra; try (apply near_of_int; lia).
  - apply (IZR_le 0). exact Hp0.
  - apply (IZR_lt 0). exact Ht0.
  - exists a. split; [exact Ha |].
    eapply near_weaken; [| | exact Hnear]; [| lra].
    unfold Rdiv. apply Rmult_le_pos; [apply (IZR_le 0); exact Hp0 |].
    left. apply Rinv_0_lt_compat. apply (IZR_lt 0). exact Ht0.
Qed.

Lemma fraction_of_population_rounded (z : Z) (n : nat) :
  (0 <= z)%Z -> (0 < n)%nat ->
  exists q : R,
    @fdiv R (rounded fl) (@of_int R (rounded fl) z)
                         (@of_int R (rounded fl) (Z.of_nat n)) = Ok q /\
    near (6 * unit_roundoff) (IZR z / INR n) q.
Proof.
  intros Hz Hn.
  pose proof unit_roundoff_small as [Hu0 Hu1].
  assert (HN : 0 < INR n) by (apply lt_0_INR; exact Hn).
  rewrite (INR_IZR_INZ n) in *.
  destruct (rounded_div unit_roundoff unit_roundoff (IZR z) (IZR (Z.of_nat n))
              (@of_int R (rounded fl) z) (@of_int R (rounded fl) (Z.of_nat n)))
    as (q & Hq & Hnear);
    try lra; try (apply near_of_int; lia).
  - apply (IZR_le 0). exact Hz.
  - exists q. split; [exact Hq |].
    eapply near_weaken; [| | exact Hnear]; [| lra].
    unfold Rdiv. apply Rmult_le_pos; [apply (IZR_le 0); exact Hz |].
    left. apply Rinv_0_lt_compat. exact HN.
Qed.

Lemma joint_over_marginal_rounded (st : state) (L p t : Z) (n : nat) :
  purchases st !! L = Some p -> totals st !! L = Some t ->
  (0 <= p)%Z -> (0 < t)%Z -> (0 < n)%nat ->
  exists b : R,
    @joint_over_marginal R (rounded fl) st L n = Ok b /\
    near (26 * unit_roundoff) (IZR p / IZR t) b.
Proof.
  intros Hp Ht Hp0 Ht0 Hn. unfold joint_over_marginal, joint, PF.
  rewrite (dict_get_Some _ _ _ Hp), bind_Ok, (dict_get_Some _ _ _ Ht).
  destruct (fraction_of_population_rounded p n Hp0 Hn) as (j & Hj & Hjn).
  destruct (fraction_of_population_rounded t n ltac:(lia) Hn) as (f & Hf & Hfn).
  rewrite Hj, bind_Ok, bind_Ok, Hf, bind_Ok.
  pose proof unit_roundoff_small as [Hu0 Hu1].
  assert (HN : 0 < INR n) by (apply lt_0_INR; exact Hn).
  assert (HT : 0 < IZR t) by (apply (IZR_lt 0); exact Ht0).
  assert (HP : 0 <= IZR p) by (apply (IZR_le 0); exact Hp0).
  assert (Hjp : 0 <= IZR p / INR n).
  { unfold Rdiv. apply Rmult_le_pos; [exact HP |].
    left. apply Rinv_0_lt_compat. exact HN. }
  assert (Hfp : 0 < IZR t / INR n).
  { unfold Rdiv. apply Rmult_lt_0_compat; [exact HT |].
    apply Rinv_0_lt_compat. exact HN. }
  destruct (rounded_div (6 * unit_roundoff) (6 * unit_roundoff)
              (IZR p / INR n) (IZR t / INR n) j f)
    as (b & Hb & Hnear); try lra; try assumption.
  exists b. split; [exact Hb |].
  rewrite ratio_of_ratios in Hnear by lra.
  eapply near_weaken; [| | exact Hnear]; [| lra].
  unfold Rdiv. apply Rmult_le_pos; [exact HP |].
  left. apply Rinv_0_lt_compat. exact HT.
Qed.

Lemma near_both_within (r a b : R) :
  0 <= r <= 1 ->
  near (6 * unit_roundoff) r a -> near (26 * unit_roundoff) r b ->
  Rabs (a - b) < / 1000000000.
Proof.
  intros Hr [Ha1 Ha2] [Hb1 Hb2].
  pose proof unit_roundoff_small as [Hu0 Hu1].
  set (u := unit_roundoff) in *.
  assert (0 <= r * u) by nra.
  assert (r * u <= u) by nra.
  apply Rabs_def1; nra.
Qed.

End StandardModel.

Section Consistency.
Local Open Scope R_scope.

Lemma joint_exact (st : state) (L p : Z) (n : nat) :
  purchases st !! L = Some p -> n <> 0%nat ->
  @joint R exact st L n = Ok (IZR p / INR n).
Proof.
  intros Hp Hn. unfold joint. rewrite (dict_get_Some _ _ _ Hp), bind_Ok.
  simpl. rewrite <- INR_IZR_INZ. apply Rdiv_checked_ok, not_0_INR, Hn.
Qed.

Lemma PF_exact (st : state) (L t : Z) (n : nat) :
  totals st !! L = Some t -> n <> 0%nat ->
  @PF R exact st L n = Ok (IZR t / INR n).
Proof.
  intros Ht Hn. unfold PF. rewrite (dict_get_Some _ _ _ Ht), bind_Ok.
  simpl. rewrite <- INR_IZR_INZ. apply Rdiv_checked_ok, not_0_INR, Hn.
Qed.

Lemma simulate_no_labels {T : Type} `{Arith T} (n : nat) (rng : tape) :
  simulate [] (S n) rng = Raise ValueError.
Proof. reflexivity. Qed.

(** C6. In the state the generation loop ends in, for every label [L]
    whose tally [t] is positive and a population [N > 0]: [purchases] has
    an entry [p] for [L]; in exact arithmetic [PEF], the conditional
    probability [p / t], and the quotient of the joint probability [p / N]
    by the marginal [t / N] are the same number; and in any arithmetic that
    rounds every operation within the unit roundoff of binary64 the two
    differ by less than 1e-9. *)
Theorem conditional_probability_consistency {T : Type} `{Arith T}
    (labels : list Z) (N : nat) (rng : tape) (st : state) (L t : Z) :
  (forall K : Z, exists q : T, fdiv (of_int K) (of_int 100%Z) = Ok q) ->
  simulate labels N rng = Ok st ->
  totals st !! L = Some t -> (0 < t)%Z -> (0 < N)%nat ->
  exists p : Z,
    purchases st !! L = Some p /\
    @PEF R exact st L = Ok (IZR p / IZR t) /\
    @joint R exact st L N = Ok (IZR p / INR N) /\
    @PF R exact st L N = Ok (IZR t / INR N) /\
    @joint_over_marginal R exact st L N
      = Ok (IZR p / INR N / (IZR t / INR N)) /\
    IZR p / INR N / (IZR t / INR N) = IZR p / IZR t /\
    forall fl : R -> R, standard_model fl ->
      exists a b : R,
        @PEF R (rounded fl) st L = Ok a /\
        @joint_over_marginal R (rounded fl) st L N = Ok b /\
        Rabs (a - b) < / 1000000000.
Proof.
  intros Hdiv Hrun Ht Ht0 HN.
  assert (Hl : labels <> []).
  { intros ->. destruct N as [|N]; [lia |].
    rewrite simulate_no_labels in Hrun. discriminate. }
  destruct (simulate_prefix Hdiv labels rng N N Hl (le_n N))
    as (st1 & _ & Hst1 & _ & _ & (Hdt & Hdp & Hle & _) & _).
  rewrite Hrun in Hst1. injection Hst1 as <-.
  assert (Hps : is_Some (purchases st !! L)).
  { apply elem_of_dom. rewrite Hdp, <- Hdt. apply elem_of_dom. eauto. }
  destruct Hps as [p Hp]. pose proof (Hle L p t Hp Ht) as Hpt.
  assert (HNz : N <> 0%nat) by lia.
  assert (Htz : t <> 0%Z) by lia.
  assert (HTr : 0 < IZR t) by (apply (IZR_lt 0); exact Ht0).
  assert (HNr : 0 < INR N) by (apply lt_0_INR; exact HN).
  exists p. repeat apply conj.
  - exact Hp.
  - apply PEF_exact; assumption.
  - apply joint_exact; assumption.
  - apply PF_exact; assumption.
  - apply joint_over_marginal_exact; assumption.
  - apply ratio_of_ratios; lra.
  - intros fl Hfl.
    destruct (PEF_rounded fl Hfl st L p t Hp Ht ltac:(lia) Ht0) as (a & Ha & Hna).
    destruct (joint_over_marginal_rounded fl Hfl st L p t N Hp Ht ltac:(lia) Ht0 HN)
      as (b & Hb & Hnb).
    exists a, b. split; [exact Ha |]. split; [exact Hb |].
    apply (near_both_within (IZR p / IZR t)); [| exact Hna | exact Hnb].
    assert (0 <= IZR p <= IZR t) by (split; apply IZR_le; lia).
    split.
    + unfold Rdiv. apply Rmult_le_pos; [lra |].
      left. apply Rinv_0_lt_compat. exact HTr.
    + apply (Rmult_le_reg_r (IZR t)); [exact HTr |].
      replace (IZR p / IZR t * IZR t) with (IZR p) by (field; lra). lra.
Qed.

Lemma conditional_probability_consistency_witness :
  exists p : Z,
    purchases sample_state !! 30%Z = Some p /\
    @PEF R exact sample_state 30%Z = Ok (IZR p / IZR 2) /\
    @joint R exact sample_state 30%Z 4 = Ok (IZR p / INR 4) /\
    @PF R exact sample_state 30%Z 4 = Ok (IZR 2 / INR 4) /\
    @joint_over_marginal R exact sample_state 30%Z 4
      = Ok (IZR p / INR 4 / (IZR 2 / INR 4)) /\
    IZR p / INR 4 / (IZR 2 / INR 4) = IZR p / IZR 2 /\
    forall fl : R -> R, standard_model fl ->
      exists a b : R,
        @PEF R (rounded fl) sample_state 30%Z = Ok a /\
        @joint_over_marginal R (rounded fl) sample_state 30%Z 4 = Ok b /\
        Rabs (a - b) < / 1000000000.
Proof.
  apply (@conditional_probability_consistency spec_float Binary64.arith
           ages 4 sample_tape sample_state 30%Z 2%Z);
    [exact binary64_percent_defined | vm_compute; reflexivity
    | vm_compute; reflexivity | lia | lia].
Defined.

End Consistency.

(** ** Roundings that obey the standard model *)

Section Roundings.
Local Open Scope R_scope.

Lemma identity_standard_model : standard_model (fun x => x).
Proof.
  intros x. rewrite Rminus_diag, Rabs_R0.
  pose proof unit_roundoff_small. pose proof (Rabs_pos x). nra.
Qed.

Lemma Rfloor_spec (r : R) : IZR (Rfloor r) <= r < IZR (Rfloor r) + 1.
Proof.
  unfold Rfloor. rewrite minus_IZR. destruct (archimed r) as [H1 H2]. lra.
Qed.

Lemma nearest_even_spec (r : R) : Rabs (IZR (nearest_even r) - r) <= / 2.
Proof.
  unfold nearest_even. pose proof (Rfloor_spec r) as [H1 H2].
  set (f := Rfloor r) in *.
  destruct (Rlt_dec (r - IZR f) (/ 2)) as [Hlt | Hge].
  - apply Rabs_le. lra.
  - destruct (Rlt_dec (/ 2) (r - IZR f)) as [Hgt | Hle].
    + rewrite plus_IZR. apply Rabs_le. lra.
    + destruct (Z.even f); [| rewrite plus_IZR]; apply Rabs_le; lra.
Qed.

Lemma binade_spec (x : R) : x <> 0 -> powerRZ 2 (binade x) <= Rabs x.
Proof.
  intros Hx. pose proof (Rabs_pos_lt x Hx) as Hpos.
  rewrite powerRZ_Rpower by lra. unfold Rpower, binade.
  pose proof (Rfloor_spec (ln (Rabs x) / ln 2)) as [Hf _].
  set (e := IZR (Rfloor (ln (Rabs x) / ln 2))) in *.
  pose proof ln_lt_2 as Hln2.
  assert (Hle : e * ln 2 <= ln (Rabs x)).
  { apply (Rmult_le_compat_r (ln 2)) in Hf; [| lra].
    replace (ln (Rabs x) / ln 2 * ln 2) with (ln (Rabs x)) in Hf by (field; lra).
    exact Hf. }
  apply Rle_trans with (exp (ln (Rabs x)));
    [| rewrite exp_ln by exact Hpos; lra].
  destruct Hle as [Hlt | Heq].
  - left. apply exp_increasing. exact Hlt.
  - right. rewrite Heq. reflexivity.
Qed.

Lemma powerRZ_52 : powerRZ 2 52 = 4503599627370496.
Proof.
  unfold powerRZ. replace (Pos.to_nat 52) with 52%nat by reflexivity.
  simpl. lra.
Qed.

Lemma round53_standard_model : standard_model round53.
Proof.
  intros x. unfold round53.
  destruct (Req_dec_T x 0) as [-> | Hx].
  - rewrite Rminus_diag, Rabs_R0. lra.
  - pose proof (binade_spec x Hx) as Hb.
    pose proof (Rabs_pos_lt x Hx) as Hpos.
    set (e := binade x) in *.
    assert (He : 0 < powerRZ 2 e) by (apply powerRZ_lt; lra).
    set (s := powerRZ 2 (52 - e)).
    assert (Hs : s = 4503599627370496 * / powerRZ 2 e).
    { unfold s. replace (52 - e)%Z with (52 + - e)%Z by lia.
      rewrite powerRZ_add by lra. rewrite powerRZ_neg', powerRZ_52. reflexivity. }
    assert (Hs0 : 0 < s).
    { rewrite Hs. apply Rmult_lt_0_compat; [lra |].
      apply Rinv_0_lt_compat. exact He. }
    pose proof (nearest_even_spec (x * s)) as Hm.
    set (m := IZR (nearest_even (x * s))) in *.
    replace (m / s - x) with ((m - x * s) * / s) by (field; lra).
    rewrite Rabs_mult, (Rabs_right (/ s))
      by (left; apply Rinv_0_lt_compat; exact Hs0).
    unfold unit_roundoff. rewrite pow2_53.
    apply (Rmult_le_reg_r s); [exact Hs0 |].
    replace (Rabs (m - x * s) * / s * s) with (Rabs (m - x * s)) by (field; lra).
    apply Rle_trans with (/ 2); [exact Hm |].
    assert (Hxs : 4503599627370496 <= Rabs x * s).
    { rewrite Hs.
      replace (Rabs x * (4503599627370496 * / powerRZ 2 e))
        with (4503599627370496 * (Rabs x * / powerRZ 2 e)) by ring.
      assert (1 <= Rabs x * / powerRZ 2 e).
      { apply (Rmult_le_reg_r (powerRZ 2 e)); [exact He |].
        replace (Rabs x * / powerRZ 2 e * powerRZ 2 e) with (Rabs x) by (field; lra).
        lra. }
      lra. }
    lra.
Qed.

Lemma Rfloor_unique (r : R) (z : Z) : IZR z <= r < IZR z + 1 -> Rfloor r = z.
Proof.
  intros [H1 H2]. unfold Rfloor.
  rewrite <- (tech_up r (z + 1)); [lia | |]; rewrite plus_IZR; lra.
Qed.

Lemma ln_powerRZ_2 (e : Z) : ln (powerRZ 2 e) = IZR e * ln 2.
Proof. rewrite powerRZ_Rpower by lra. unfold Rpower. apply ln_exp. Qed.

Lemma binade_unique (x : R) (e : Z) :
  powerRZ 2 e <= Rabs x < powerRZ 2 (e + 1) -> binade x = e.
Proof.
  intros [H1 H2]. unfold binade. apply Rfloor_unique.
  pose proof ln_lt_2 as Hln2.
  assert (He : 0 < powerRZ 2 e) by (apply powerRZ_lt; lra).
  assert (L1 : IZR e * ln 2 <= ln (Rabs x)).
  { rewrite <- ln_powerRZ_2. destruct H1 as [H1 | H1].
    - left. apply ln_increasing; assumption.
    - right. rewrite H1. reflexivity. }
  assert (L2 : ln (Rabs x) < (IZR e + 1) * ln 2).
  { rewrite <- plus_IZR, <- ln_powerRZ_2. apply ln_increasing; lra. }
  split.
  - apply (Rmult_le_reg_r (ln 2)); [lra |].
    replace (ln (Rabs x) / ln 2 * ln 2) with (ln (Rabs x)) by (field; lra). lra.
  - apply (Rmult_lt_reg_r (ln 2)); [lra |].
    replace (ln (Rabs x) / ln 2 * ln 2) with (ln (Rabs x)) by (field; lra). lra.
Qed.

Lemma nearest_even_below (r : R) (z : Z) :
  IZR z <= r < IZR z + / 2 -> nearest_even r = z.
Proof.
  intros [H1 H2]. unfold nearest_even.
  rewrite (Rfloor_unique r z) by lra.
  destruct (Rlt_dec (r - IZR z) (/ 2)); [reflexivity | lra].
Qed.

Lemma powerRZ_54 : powerRZ 2 54 = 18014398509481984.
Proof.
  unfold powerRZ. replace (Pos.to_nat 54) with 54%nat by reflexivity.
  simpl. lra.
Qed.

(** On [1 / 3] the rounding agrees with the division of binary64. *)
Example round53_third :
  round53 (1 / 3)
  = Binary64.to_R (SFdiv Binary64.prec Binary64.emax (Binary64.of_Z 1) (Binary64.of_Z 3)).
Proof.
  replace (SFdiv Binary64.prec Binary64.emax (Binary64.of_Z 1) (Binary64.of_Z 3))
    with (S754_finite false 6004799503160661 (-54)) by (vm_compute; reflexivity).
  unfold round53. destruct (Req_dec_T (1 / 3) 0) as [H | _]; [lra |].
  assert (Hb : binade (1 / 3) = (-2)%Z).
  { apply binade_unique. rewrite Rabs_right by lra.
    change (-2 + 1)%Z with (-1)%Z. simpl. lra. }
  rewrite Hb. change (52 - -2)%Z with 54%Z. rewrite powerRZ_54.
  rewrite (nearest_even_below _ 6004799503160661) by lra.
  unfold Binary64.to_R, powerRZ.
  replace (Pos.to_nat 54) with 54%nat by reflexivity.
  simpl. lra.
Qed.

End Roundings.

(** * Further properties of Procedure B *)

Section MoreB.
Local Open Scope R_scope.

Lemma nonempty_length {A : Type} (l : list A) : l <> [] <-> length l <> 0%nat.
Proof. destruct l; simpl; split; congruence. Qed.

Lemma Rdot_comm (u v : list R) : Rdot u v = Rdot v u.
Proof.
  revert v; induction u as [|p u IH]; intros [|q v]; simpl; try reflexivity.
  rewrite IH. ring.
Qed.

Lemma Sxy_comm (x y : list R) : Sxy x y = Sxy y x.
Proof. unfold Sxy. apply Rdot_comm. Qed.

Lemma de_mean_deviations (x : list R) : de_mean x = Ok (deviations x).
Proof.
  destruct x as [|p x]; [reflexivity |]. apply de_mean_exact. discriminate.
Qed.

(** The result of [covariance] on every pair of sequences. *)
Lemma covariance_cases (x y : list R) :
  covariance x y =
    if decide (length x = length y)
    then if decide (length x = 1%nat) then Raise ZeroDivisionError
         else Ok (Sxy x y / (INR (length x) - 1))
    else Raise ValueError.
Proof.
  destruct (decide (length x = length y)) as [Hlen | Hlen].
  - destruct (decide (length x = 1%nat)) as [H1 | H1].
    + apply covariance_single; [exact H1 | rewrite <- Hlen; exact H1].
    + destruct (le_lt_dec 2 (length x)) as [Hn | Hn].
      * apply covariance_exact; assumption.
      * destruct x as [|p x]; [| simpl in *; lia].
        destruct y; [| discriminate].
        rewrite covariance_nil. f_equal. unfold Sxy. simpl.
        unfold Rdiv. rewrite Rmult_0_l. reflexivity.
  - unfold covariance.
    rewrite (de_mean_deviations x), bind_Ok, (de_mean_deviations y), bind_Ok.
    rewrite dot_mismatch by (rewrite !length_deviations; exact Hlen).
    reflexivity.
Qed.

(** X1. [covariance] refuses with [ValueError] exactly the pairs of
    sequences of different lengths, an empty one included; it is undefined
    by a division by zero exactly when both have one element; on two empty
    sequences it returns zero; and it never meets a [KeyError]. *)
Theorem covariance_faults (x y : list R) :
  (covariance x y = Raise ValueError <-> length x <> length y) /\
  (covariance x y = Raise ZeroDivisionError
   <-> length x = 1%nat /\ length y = 1%nat) /\
  (x = [] -> y = [] -> covariance x y = Ok 0) /\
  (forall k : Z, covariance x y <> Raise (KeyError k)).
Proof.
  split; [| split; [| split]].
  - rewrite covariance_cases.
    destruct (decide (length x = length y)) as [Hlen | Hlen];
      [destruct (decide (length x = 1%nat)) |];
      (split; [try discriminate; tauto | try tauto; try reflexivity]).
  - rewrite covariance_cases.
    destruct (decide (length x = length y)) as [Hlen | Hlen];
      [destruct (decide (length x = 1%nat)) as [H1 | H1] |].
    + split; [intros _; split; [exact H1 | rewrite <- Hlen; exact H1]
             | reflexivity].
    + split; [discriminate | intros [H1' _]; contradiction].
    + split; [discriminate | intros [H1 H2]; exfalso; apply Hlen; lia].
  - intros -> ->. apply covariance_nil.
  - intros k. rewrite covariance_cases.
    destruct (decide (length x = length y));
      [destruct (decide (length x = 1%nat)) |]; discriminate.
Qed.

(** X2. [covariance] is symmetric on all inputs, faults included. *)
Theorem covariance_symmetric (x y : list R) :
  covariance x y = covariance y x.
Proof.
  rewrite (covariance_cases x y), (covariance_cases y x).
  destruct (decide (length x = length y)) as [Hlen | Hlen];
    destruct (decide (length y = length x)) as [Hlen' | Hlen'];
    try congruence.
  rewrite <- Hlen.
  destruct (decide (length x = 1%nat)); [reflexivity |].
  rewrite Sxy_comm. reflexivity.
Qed.

(** The result of [correlation] on every pair of sequences. *)
Lemma correlation_cases (x y : list R) :
  correlation x y =
    if decide (length x = length y)
    then if Req_dec_T (Sxy x x) 0 then Raise ZeroDivisionError
         else if Req_dec_T (Sxy y y) 0 then Raise ZeroDivisionError
         else Ok (correlation_value x y)
    else Raise ValueError.
Proof.
  destruct (decide (length x = length y)) as [Hlen | Hlen].
  - destruct (Req_dec_T (Sxy x x) 0) as [Hxx | Hxx];
      [apply correlation_faults; auto |].
    destruct (Req_dec_T (Sxy y y) 0) as [Hyy | Hyy];
      [apply correlation_faults; auto |].
    apply correlation_exact; try assumption.
    apply nonconstant_long. intros Hc. apply Hxx.
    apply Sxx_zero_iff_constant, Hc.
  - unfold correlation. rewrite covariance_cases.
    destruct (decide (length x = length y)); [contradiction | reflexivity].
Qed.

Lemma correlation_value_comm (x y : list R) :
  length x = length y -> correlation_value x y = correlation_value y x.
Proof.
  intros Hlen. unfold correlation_value.
  rewrite (Sxy_comm x y), Hlen. unfold Rdiv. ring.
Qed.

(** X3. [correlation] is symmetric on all inputs, faults included, and it
    refuses with [ValueError] exactly the pairs of sequences of different
    lengths, an empty one included. *)
Theorem correlation_symmetric (x y : list R) :
  correlation x y = correlation y x /\
  (correlation x y = Raise ValueError <-> length x <> length y).
Proof.
  rewrite (correlation_cases x y), (correlation_cases y x).
  destruct (decide (length x = length y)) as [Hlen | Hlen];
    destruct (decide (length y = length x)) as [Hlen' | Hlen'];
    try congruence.
  - rewrite (correlation_value_comm x y Hlen).
    destruct (Req_dec_T (Sxy x x) 0), (Req_dec_T (Sxy y y) 0);
      (split; [reflexivity |]; split; [discriminate | tauto]).
  - split; [reflexivity |]. split; [tauto | reflexivity].
Qed.

(** X4. The covariance follows the units of its arguments: replacing [x]
    by [a * x + b] and [y] by [c * y + d] multiplies it by [a * c]. *)
Theorem covariance_affine (x y : list R) (a b c d : R) :
  length x = length y -> (2 <= length x)%nat ->
  exists v : R,
    covariance x y = Ok v /\
    covariance (affine a b x) y = Ok (a * v) /\
    covariance x (affine c d y) = Ok (c * v) /\
    covariance (affine a b x) (affine c d y) = Ok (a * c * v).
Proof.
  intros Hlen Hn.
  assert (Hx : x <> []) by (apply nonempty_length; lia).
  assert (Hy : y <> []) by (apply nonempty_length; lia).
  exists (Sxy x y / (INR (length x) - 1)).
  assert (2 <= INR (length x)) by (apply (le_INR 2); exact Hn).
  repeat apply conj.
  - apply covariance_exact; assumption.
  - rewrite covariance_exact by (rewrite ?length_affine; assumption).
    rewrite Sxy_affine_l, length_affine by exact Hx.
    f_equal. field. lra.
  - rewrite covariance_exact by (rewrite ?length_affine; assumption).
    rewrite Sxy_affine_r by exact Hy. f_equal. field. lra.
  - rewrite covariance_exact by (rewrite ?length_affine; assumption).
    rewrite Sxy_affine_l, length_affine by exact Hx.
    rewrite Sxy_affine_r by exact Hy. f_equal. field. lra.
Qed.

Lemma covariance_affine_witness :
  exists v : R,
    covariance [1; 2; 4] [0; 5; 1] = Ok v /\
    covariance (affine 3 1 [1; 2; 4]) [0; 5; 1] = Ok (3 * v) /\
    covariance [1; 2; 4] (affine (-2) 7 [0; 5; 1]) = Ok (-2 * v) /\
    covariance (affine 3 1 [1; 2; 4]) (affine (-2) 7 [0; 5; 1])
      = Ok (3 * -2 * v).
Proof.
  apply (covariance_affine [1; 2; 4] [0; 5; 1] 3 1 (-2) 7);
    [reflexivity | simpl; lia].
Defined.

Lemma Rsum_deviations (x : list R) : x <> [] -> Rsum (deviations x) = 0.
Proof.
  intros Hx. pose proof (INR_length_neq_0 x Hx) as Hn.
  assert (Hgen : forall (m : R) (l : list R),
             Rsum (map (fun xi => xi - m) l) = Rsum l - INR (length l) * m).
  { intros m l. induction l as [|p l IH].
    - simpl. lra.
    - change (Rsum (map (fun xi => xi - m) (p :: l)))
        with (p - m + Rsum (map (fun xi => xi - m) l)).
      change (Rsum (p :: l)) with (p + Rsum l).
      change (length (p :: l)) with (S (length l)).
      rewrite S_INR, IH. lra. }
  unfold deviations. rewrite Hgen. unfold Rmean. field. exact Hn.
Qed.

Lemma deviations_idempotent (x : list R) :
  x <> [] -> deviations (deviations x) = deviations x.
Proof.
  intros Hx. unfold deviations at 1.
  unfold Rmean. rewrite Rsum_deviations by exact Hx.
  transitivity (map (fun d : R => d) (deviations x)); [| apply map_id].
  apply map_ext. intros d. unfold Rdiv. lra.
Qed.

(** X5. The sequence [de_mean] returns is centred: its elements sum to
    zero, its mean is zero, and [de_mean] leaves it unchanged. *)
Theorem de_mean_centred (x : list R) :
  x <> [] ->
  exists dx : list R,
    de_mean x = Ok dx /\
    sum dx = 0 /\ mean dx = Ok 0 /\ de_mean dx = Ok dx.
Proof.
  intros Hx. exists (deviations x).
  assert (Hd : deviations x <> []).
  { apply nonempty_length. rewrite length_deviations.
    apply nonempty_length, Hx. }
  repeat apply conj.
  - apply de_mean_exact, Hx.
  - rewrite sum_exact. apply Rsum_deviations, Hx.
  - rewrite (mean_exact _ Hd). f_equal. unfold Rmean.
    rewrite Rsum_deviations by exact Hx. unfold Rdiv. ring.
  - rewrite (de_mean_exact _ Hd). f_equal.
    apply deviations_idempotent, Hx.
Qed.

Lemma de_mean_centred_witness :
  exists dx : list R,
    de_mean [3; 5; 10] = Ok dx /\
    sum dx = 0 /\ mean dx = Ok 0 /\ de_mean dx = Ok dx.
Proof. apply (de_mean_centred [3; 5; 10]). discriminate. Defined.

(** X6. In exact arithmetic [covariance(x, x)] is a variance: it is never
    negative, it is zero exactly on constant sequences, and the standard
    deviation [x.std()] used by [correlation] satisfies
    [n * std^2 = (n - 1) * covariance(x, x)]. *)
Theorem covariance_self_variance (x : list R) :
  (2 <= length x)%nat ->
  exists v s : R,
    covariance x x = Ok v /\ std x = Ok s /\
    0 <= v /\ 0 <= s /\
    (v = 0 <-> constant x) /\
    INR (length x) * (s * s) = (INR (length x) - 1) * v.
Proof.
  intros Hn.
  assert (Hx : x <> []) by (apply nonempty_length; lia).
  assert (H2 : 2 <= INR (length x)) by (apply (le_INR 2); exact Hn).
  pose proof (Rdot_self_nonneg (deviations x)) as Hnn.
  exists (Sxy x x / (INR (length x) - 1)),
         (sqrt (Sxy x x / INR (length x))).
  repeat apply conj.
  - apply covariance_exact; [reflexivity | exact Hn].
  - apply std_exact, Hx.
  - unfold Rdiv. apply Rmult_le_pos; [exact Hnn |].
    left. apply Rinv_0_lt_compat. lra.
  - apply sqrt_pos.
  - intros Hv. apply Sxx_zero_iff_constant.
    apply (f_equal (fun w => w * (INR (length x) - 1))) in Hv.
    field_simplify in Hv; lra.
  - intros Hc. apply Sxx_zero_iff_constant in Hc. rewrite Hc.
    unfold Rdiv. ring.
  - rewrite sqrt_sqrt by apply variance_nonneg. field. lra.
Qed.

Lemma covariance_self_variance_witness :
  exists v s : R,
    covariance [1; 2; 4] [1; 2; 4] = Ok v /\ std [1; 2; 4] = Ok s /\
    0 <= v /\ 0 <= s /\
    (v = 0 <-> constant [1; 2; 4]) /\
    INR (length [1; 2; 4]) * (s * s) = (INR (length [1; 2; 4]) - 1) * v.
Proof. apply (covariance_self_variance [1; 2; 4]). simpl; lia. Defined.

Lemma Rdot_quadratic (u v : list R) (t : R) :
  0 <= Rdot u u + 2 * t * Rdot u v + t * t * Rdot v v.
Proof.
  revert v; induction u as [|p u IH]; intros v.
  - pose proof (Rdot_self_nonneg v).
    assert (Hnil : Rdot [] v = 0) by (destruct v; reflexivity).
    rewrite Hnil. simpl. nra.
  - destruct v as [|q v].
    + pose proof (Rdot_self_nonneg (p :: u)). simpl in *. nra.
    + specialize (IH v). pose proof (Rle_0_sqr (p + t * q)) as Hsq.
      unfold Rsqr in Hsq. simpl. nra.
Qed.

Lemma cauchy_schwarz (u v : list R) :
  Rdot u v * Rdot u v <= Rdot u u * Rdot v v.
Proof.
  pose proof (Rdot_quadratic u v) as Hq.
  pose proof (Rdot_self_nonneg v) as Hv.
  set (A := Rdot v v) in *. set (B := Rdot u v) in *. set (C := Rdot u u) in *.
  destruct (Req_dec_T A 0) as [HA | HA].
  - destruct (Req_dec_T B 0) as [HB | HB]; [rewrite HA, HB; lra |].
    exfalso. specialize (Hq (- (C + 1) / (2 * B))). rewrite HA in Hq.
    replace (C + 2 * (- (C + 1) / (2 * B)) * B
             + - (C + 1) / (2 * B) * (- (C + 1) / (2 * B)) * 0)
      with (-1) in Hq by (field; exact HB).
    lra.
  - specialize (Hq (- B / A)).
    replace (C + 2 * (- B / A) * B + - B / A * (- B / A) * A)
      with ((C * A - B * B) / A) in Hq by (field; exact HA).
    assert (HApos : 0 < A) by lra.
    apply (Rmult_le_compat_r A) in Hq; [| lra].
    replace ((C * A - B * B) / A * A) with (C * A - B * B) in Hq
      by (field; exact HA).
    lra.
Qed.

Lemma correlation_value_bound (x y : list R) :
  length x = length y -> (2 <= length x)%nat ->
  Sxy x x <> 0 -> Sxy y y <> 0 ->
  Rabs (correlation_value x y) <= INR (length x) / (INR (length x) - 1).
Proof.
  intros Hlen Hn Hxx Hyy.
  assert (Hx : x <> []) by (apply nonempty_length; lia).
  assert (Hy : y <> []) by (apply nonempty_length; lia).
  assert (H2 : 2 <= INR (length x)) by (apply (le_INR 2); exact Hn).
  pose proof (cauchy_schwarz (deviations x) (deviations y)) as Hcs.
  fold (Sxy x y) (Sxy x x) (Sxy y y) in Hcs.
  pose proof (variance_nonneg x) as Hvx. pose proof (variance_nonneg y) as Hvy.
  pose proof (sqrt_sqrt _ Hvx) as Hsx. pose proof (sqrt_sqrt _ Hvy) as Hsy.
  assert (Hsx0 : sqrt (Sxy x x / INR (length x)) <> 0)
    by (rewrite sqrt_variance_zero_iff; assumption).
  assert (Hsy0 : sqrt (Sxy y y / INR (length y)) <> 0)
    by (rewrite sqrt_variance_zero_iff; assumption).
  pose proof (sqrt_pos (Sxy x x / INR (length x))) as Hsxp.
  pose proof (sqrt_pos (Sxy y y / INR (length y))) as Hsyp.
  unfold correlation_value. rewrite <- Hlen in *.
  set (n := INR (length x)) in *.
  set (sx := sqrt (Sxy x x / n)) in *. set (sy := sqrt (Sxy y y / n)) in *.
  set (k := sx * sy).
  assert (Hk : 0 < k) by (unfold k; apply Rmult_lt_0_compat; lra).
  assert (HS : Sxy x x * Sxy y y = n * n * (k * k)).
  { unfold k.
    replace (n * n * (sx * sy * (sx * sy)))
      with ((n * (sx * sx)) * (n * (sy * sy))) by ring.
    rewrite Hsx, Hsy. field. lra. }
  set (r := Sxy x y / (n - 1) / sx / sy).
  set (c := n / (n - 1)).
  assert (Hc : 0 < c).
  { unfold c, Rdiv. apply Rmult_lt_0_compat; [lra |].
    apply Rinv_0_lt_compat. lra. }
  assert (Hr : r * ((n - 1) * k) = Sxy x y)
    by (unfold r, k; field; repeat split; lra).
  assert (Hcn : c * ((n - 1) * k) = n * k) by (unfold c; field; lra).
  assert (Hd : 0 < (n - 1) * k) by (apply Rmult_lt_0_compat; lra).
  assert (Hsq : r * r <= c * c).
  { apply (Rmult_le_reg_r (((n - 1) * k) * ((n - 1) * k)));
      [apply Rmult_lt_0_compat; exact Hd |].
    replace (r * r * ((n - 1) * k * ((n - 1) * k)))
      with ((r * ((n - 1) * k)) * (r * ((n - 1) * k))) by ring.
    replace (c * c * ((n - 1) * k * ((n - 1) * k)))
      with ((c * ((n - 1) * k)) * (c * ((n - 1) * k))) by ring.
    rewrite Hr, Hcn.
    replace (n * k * (n * k)) with (n * n * (k * k)) by ring.
    rewrite <- HS. exact Hcs. }
  unfold Rabs. destruct (Rcase_abs r); nra.
Qed.

Lemma correlation_two_points : correlation [1; 2] [3; 5] = Ok 2.
Proof.
  replace [3; 5] with (affine 2 1 [1; 2])
    by (unfold affine; simpl; repeat (apply f_equal2; [lra |]); reflexivity).
  rewrite correlation_of_affine_image;
    [| simpl; lia | apply two_nonconstant; lra | lra].
  f_equal. rewrite Rabs_two. simpl. lra.
Qed.

(** X7. Whenever [correlation(x, y)] returns a value [r], the sequences
    have the same length [n >= 2] and [|r| <= n / (n - 1)]; and the
    covariances satisfy the Cauchy-Schwarz inequality
    [covariance(x, y)^2 <= covariance(x, x) * covariance(y, y)]. *)
Theorem correlation_bound (x y : list R) (r : R) :
  correlation x y = Ok r ->
  length x = length y /\ (2 <= length x)%nat /\
  Rabs r <= INR (length x) / (INR (length x) - 1) /\
  exists c vx vy : R,
    covariance x y = Ok c /\ covariance x x = Ok vx /\
    covariance y y = Ok vy /\ c * c <= vx * vy.
Proof.
  rewrite correlation_cases.
  destruct (decide (length x = length y)) as [Hlen | Hlen]; [| discriminate].
  destruct (Req_dec_T (Sxy x x) 0) as [Hxx | Hxx]; [discriminate |].
  destruct (Req_dec_T (Sxy y y) 0) as [Hyy | Hyy]; [discriminate |].
  intros [= <-].
  assert (Hn : (2 <= length x)%nat).
  { apply nonconstant_long. intros Hc. apply Hxx, Sxx_zero_iff_constant, Hc. }
  assert (H2 : 2 <= INR (length x)) by (apply (le_INR 2); exact Hn).
  split; [exact Hlen |]. split; [exact Hn |].
  split; [apply correlation_value_bound; assumption |].
  exists (Sxy x y / (INR (length x) - 1)),
         (Sxy x x / (INR (length x) - 1)),
         (Sxy y y / (INR (length y) - 1)).
  repeat apply conj.
  - apply covariance_exact; assumption.
  - apply covariance_exact; [reflexivity | exact Hn].
  - apply covariance_exact; [reflexivity | rewrite <- Hlen; exact Hn].
  - rewrite <- Hlen.
    pose proof (cauchy_schwarz (deviations x) (deviations y)) as Hcs.
    fold (Sxy x y) (Sxy x x) (Sxy y y) in Hcs.
    set (m := INR (length x) - 1) in *.
    assert (Hm : 0 < / m) by (apply Rinv_0_lt_compat; unfold m; lra).
    unfold Rdiv.
    replace (Sxy x y * / m * (Sxy x y * / m))
      with (Sxy x y * Sxy x y * (/ m * / m)) by ring.
    replace (Sxy x x * / m * (Sxy y y * / m))
      with (Sxy x x * Sxy y y * (/ m * / m)) by ring.
    apply Rmult_le_compat_r; [| exact Hcs]. nra.
Qed.

Lemma correlation_bound_witness :
  length [1; 2] = length [3; 5] /\ (2 <= length [1; 2])%nat /\
  Rabs 2 <= INR (length [1; 2]) / (INR (length [1; 2]) - 1) /\
  exists c vx vy : R,
    covariance [1; 2] [3; 5] = Ok c /\ covariance [1; 2] [1; 2] = Ok vx /\
    covariance [3; 5] [3; 5] = Ok vy /\ c * c <= vx * vy.
Proof.
  apply (correlation_bound [1; 2] [3; 5] 2). exact correlation_two_points.
Defined.

Lemma linear_purchaseAmount_affine (x : list R) :
  linear_purchaseAmount x = affine (- 3) 100 x.
Proof.
  unfold linear_purchaseAmount, affine. apply map_ext. intros s. simpl. ring.
Qed.

Lemma INR_1000 : INR 1000 = 1000.
Proof. rewrite INR_IZR_INZ. reflexivity. Qed.

(** X8. The notebook's last scenario, [purchaseAmount = 100 - pageSpeeds * 3]:
    for non-constant page speeds the covariance is [-3] times the variance,
    and [correlation] returns [- n / (n - 1)], which for the notebook's
    1000 samples is [-1000/999], not [-1]. *)
Theorem linear_scenario (pageSpeeds : list R) :
  (2 <= length pageSpeeds)%nat -> ~ constant pageSpeeds ->
  (exists v : R,
      covariance pageSpeeds pageSpeeds = Ok v /\
      covariance pageSpeeds (linear_purchaseAmount pageSpeeds) = Ok (- 3 * v)) /\
  correlation pageSpeeds (linear_purchaseAmount pageSpeeds)
  = Ok (- (INR (length pageSpeeds) / (INR (length pageSpeeds) - 1))) /\
  (length pageSpeeds = 1000%nat ->
   correlation pageSpeeds (linear_purchaseAmount pageSpeeds)
   = Ok (- (1000 / 999))).
Proof.
  intros Hn Hc. rewrite linear_purchaseAmount_affine.
  assert (Hx : pageSpeeds <> []) by (apply nonempty_length; lia).
  assert (H2 : 2 <= INR (length pageSpeeds)) by (apply (le_INR 2); exact Hn).
  assert (Hcorr : correlation pageSpeeds (affine (- 3) 100 pageSpeeds)
                  = Ok (- (INR (length pageSpeeds) / (INR (length pageSpeeds) - 1)))).
  { rewrite correlation_of_affine_image by (assumption || lra).
    f_equal. rewrite sign_neg by lra. ring. }
  split; [| split].
  - exists (Sxy pageSpeeds pageSpeeds / (INR (length pageSpeeds) - 1)). split.
    + apply covariance_exact; [reflexivity | exact Hn].
    + rewrite covariance_exact by (rewrite ?length_affine; auto).
      rewrite Sxy_affine_r by exact Hx. f_equal. field. lra.
  - exact Hcorr.
  - intros H1000. rewrite Hcorr, H1000, INR_1000. f_equal. lra.
Qed.

Lemma linear_scenario_witness :
  (exists v : R,
      covariance [1; 2; 4] [1; 2; 4] = Ok v /\
      covariance [1; 2; 4] (linear_purchaseAmount [1; 2; 4]) = Ok (- 3 * v)) /\
  correlation [1; 2; 4] (linear_purchaseAmount [1; 2; 4])
  = Ok (- (INR (length [1; 2; 4]) / (INR (length [1; 2; 4]) - 1))) /\
  (length [1; 2; 4] = 1000%nat ->
   correlation [1; 2; 4] (linear_purchaseAmount [1; 2; 4])
   = Ok (- (1000 / 999))).
Proof.
  apply (linear_scenario [1; 2; 4]); [simpl; lia | apply two_nonconstant; lra].
Defined.

End MoreB.

(** * Further properties of Procedure A *)

Section MoreA.
Context {T : Type} `{Arith T}.
Local Open Scope Z_scope.

Lemma choice_Ok_elem (labels : list Z) (w label : Z) :
  choice labels w = Ok label -> label ∈ labels.
Proof.
  intros Hc. destruct labels as [|d l]; [discriminate |].
  destruct (choice_spec (d :: l) w ltac:(discriminate)) as (L & HL & Hin).
  congruence.
Qed.

(** From a state whose dictionaries have the labels as keys, a pass
    through the loop body that returns is a pass as [iteration_spec]
    describes, whatever the arithmetic. *)
Lemma body_Ok_spec (labels : list Z) (rng : tape) (st st' : state) :
  dom (totals st) = list_to_set labels ->
  dom (purchases st) = list_to_set labels ->
  body labels rng st = Ok st' -> iteration_spec labels rng st st'.
Proof.
  unfold body. intros Hdt Hdp Hb.
  destruct (choice labels (rng (cursor st))) as [label | e] eqn:Hc;
    [| discriminate].
  rewrite bind_Ok in Hb.
  destruct (fdiv (of_int label) (of_int 100)) as [prob | e] eqn:Hp;
    [| discriminate].
  rewrite bind_Ok in Hb.
  pose proof (choice_Ok_elem _ _ _ Hc) as Hin.
  assert (Hts : is_Some (totals st !! label))
    by (apply elem_of_dom; rewrite Hdt; apply elem_of_list_to_set, Hin).
  assert (Hps : is_Some (purchases st !! label))
    by (apply elem_of_dom; rewrite Hdp; apply elem_of_list_to_set, Hin).
  destruct Hts as [t Ht], Hps as [p Hpl].
  rewrite (dict_incr_Some _ _ _ Ht), bind_Ok in Hb.
  exists label, prob.
  split; [exact Hc |]. split; [exact Hin |].
  split; [exact Hp |]. simpl.
  destruct (flt (random_sample (rng (S (cursor st)))) prob) eqn:Hbuy.
  - rewrite (dict_incr_Some _ _ _ Hpl), bind_Ok in Hb.
    injection Hb as <-. simpl. repeat apply conj; eauto.
    + intros k. apply lookup_incr, Ht.
    + intros k. rewrite (lookup_incr _ _ _ _ Hpl).
      destruct (decide (k = label)) as [-> | Hne].
      * rewrite bool_decide_eq_true_2 by reflexivity. reflexivity.
      * rewrite bool_decide_eq_false_2 by exact Hne. reflexivity.
  - injection Hb as <-. simpl. repeat apply conj; eauto.
    intros k. apply lookup_incr, Ht.
Qed.

(** Induction along a run that returns: a property that holds of the
    state the run starts in and that every iteration preserves holds of
    the state the run ends in. *)
Lemma iterate_Ok_induction (labels : list Z) (rng : tape)
    (P : nat -> state -> Prop) :
  (forall (k : nat) (st st' : state),
      tally_invariant labels k st -> P k st ->
      iteration_spec labels rng st st' -> P (S k) st') ->
  forall (n k : nat) (st st' : state),
    tally_invariant labels k st -> P k st ->
    iterate n labels rng st = Ok st' ->
    tally_invariant labels (k + n) st' /\ P (k + n)%nat st'.
Proof.
  intros Hstep. induction n as [|n IH]; intros k st st' Hinv HP Hrun.
  - injection Hrun as <-. rewrite Nat.add_0_r. split; assumption.
  - simpl in Hrun.
    destruct (body labels rng st) as [st1 | e] eqn:Hb; [| discriminate].
    rewrite bind_Ok in Hrun.
    assert (Hspec : iteration_spec labels rng st st1)
      by (apply body_Ok_spec; [apply Hinv | apply Hinv | exact Hb]).
    pose proof (iteration_preserves labels rng k st st1 Hinv Hspec) as Hinv1.
    replace (k + S n)%nat with (S k + n)%nat by lia.
    apply (IH (S k) st1 st' Hinv1); [| exact Hrun].
    apply (Hstep k st st1); assumption.
Qed.

Lemma simulate_Ok_induction (labels : list Z) (rng : tape)
    (P : nat -> state -> Prop) (n : nat) (st : state) :
  P O (initial labels) ->
  (forall (k : nat) (st st' : state),
      tally_invariant labels k st -> P k st ->
      iteration_spec labels rng st st' -> P (S k) st') ->
  simulate labels n rng = Ok st ->
  tally_invariant labels n st /\ P n st.
Proof.
  intros H0 Hstep Hrun.
  apply (iterate_Ok_induction labels rng P Hstep n 0 (initial labels) st);
    [apply initial_invariant | exact H0 | exact Hrun].
Qed.

Lemma simulate_Ok_invariant (labels : list Z) (rng : tape) (n : nat)
    (st : state) :
  simulate labels n rng = Ok st -> tally_invariant labels n st.
Proof.
  intros Hrun.
  apply (simulate_Ok_induction labels rng (fun _ _ => True) n st);
    auto.
Qed.

(** A run of [m] iterations is a run of [n <= m] followed by the rest. *)
Lemma simulate_split (labels : list Z) (rng : tape) (n m : nat)
    (st st' : state) :
  (n <= m)%nat ->
  simulate labels n rng = Ok st -> simulate labels m rng = Ok st' ->
  iterate (m - n) labels rng st = Ok st'.
Proof.
  intros Hnm Hn Hm. unfold simulate in *.
  replace m with (n + (m - n))%nat in Hm by lia.
  rewrite iterate_add, Hn, bind_Ok in Hm. exact Hm.
Qed.

(** How far the counters move along [m] further iterations. *)
Lemma run_growth (labels : list Z) (rng : tape) (n m : nat) (st st' : state) :
  tally_invariant labels n st ->
  iterate m labels rng st = Ok st' ->
  (totalPurchases st <= totalPurchases st' <= totalPurchases st + Z.of_nat m) /\
  forall L t p : Z,
    totals st !! L = Some t -> purchases st !! L = Some p ->
    exists t' p' : Z,
      totals st' !! L = Some t' /\ purchases st' !! L = Some p' /\
      t <= t' <= t + Z.of_nat m /\ 0 <= p' - p <= t' - t.
Proof.
  intros Hinv Hrun.
  pose (P := fun (k : nat) (s : state) =>
    (totalPurchases st <= totalPurchases s
       <= totalPurchases st + (Z.of_nat k - Z.of_nat n)) /\
    forall L t p : Z,
      totals st !! L = Some t -> purchases st !! L = Some p ->
      exists t' p' : Z,
        totals s !! L = Some t' /\ purchases s !! L = Some p' /\
        t <= t' <= t + (Z.of_nat k - Z.of_nat n) /\ 0 <= p' - p <= t' - t).
  assert (Hend : tally_invariant labels (n + m) st' /\ P (n + m)%nat st').
  { apply (iterate_Ok_induction labels rng P) with (st := st);
      [| exact Hinv | | exact Hrun].
    - intros k s s' _ [Htp Hall]
             (label & prob & _ & _ & _ & _ & _ & _ & Htot & Hpur & Hagg).
      split.
      + rewrite Hagg.
        destruct (flt (random_sample (rng (S (cursor s)))) prob); lia.
      + intros L t p Ht Hp.
        destruct (Hall L t p Ht Hp) as (t' & p' & Ht' & Hp' & Hb1 & Hb2).
        rewrite Htot, Hpur, Ht', Hp'.
        destruct (decide (L = label)) as [-> | Hne].
        * rewrite bool_decide_eq_true_2 by reflexivity.
          destruct (flt (random_sample (rng (S (cursor s)))) prob); simpl;
            eexists _, _; (split; [reflexivity |]; split; [reflexivity |]; lia).
        * rewrite bool_decide_eq_false_2 by exact Hne.
          rewrite andb_false_r.
          eexists _, _; (split; [reflexivity |]; split; [reflexivity |]; lia).
    - split; [lia |]. intros L t p Ht Hp. exists t, p.
      repeat apply conj; auto; lia. }
  destruct Hend as [_ [Htp Hall]]. split; [lia |].
  intros L t p Ht Hp.
  destruct (Hall L t p Ht Hp) as (t' & p' & Ht' & Hp' & Hb1 & Hb2).
  exists t', p'. repeat apply conj; auto; lia.
Qed.

(** X10. Along a run the counters never decrease: between the states
    after [n] and after [m >= n] iterations every tally grows by at most
    [m - n], every purchase count grows by no more than its tally, and
    [totalPurchases] grows by at most [m - n]. *)
Theorem counters_never_decrease (labels : list Z) (rng : tape) (n m : nat)
    (st st' : state) :
  (n <= m)%nat ->
  simulate labels n rng = Ok st -> simulate labels m rng = Ok st' ->
  (totalPurchases st <= totalPurchases st'
     <= totalPurchases st + Z.of_nat (m - n)) /\
  forall L : Z, L ∈ labels ->
    exists t t' p p' : Z,
      totals st !! L = Some t /\ totals st' !! L = Some t' /\
      purchases st !! L = Some p /\ purchases st' !! L = Some p' /\
      t <= t' <= t + Z.of_nat (m - n) /\ 0 <= p' - p <= t' - t.
Proof.
  intros Hnm Hn Hm.
  pose proof (simulate_Ok_invariant labels rng n st Hn) as Hinv.
  pose proof (simulate_split labels rng n m st st' Hnm Hn Hm) as Hrest.
  destruct (run_growth labels rng n (m - n) st st' Hinv Hrest) as [Htp Hall].
  split; [exact Htp |]. intros L HL.
  destruct Hinv as (Hdt & Hdp & _).
  assert (Hts : is_Some (totals st !! L))
    by (apply elem_of_dom; rewrite Hdt; apply elem_of_list_to_set, HL).
  assert (Hps : is_Some (purchases st !! L))
    by (apply elem_of_dom; rewrite Hdp; apply elem_of_list_to_set, HL).
  destruct Hts as [t Ht], Hps as [p Hp].
  destruct (Hall L t p Ht Hp) as (t' & p' & Ht' & Hp' & Hb1 & Hb2).
  exists t, t', p, p'. repeat apply conj; auto; lia.
Qed.

End MoreA.

Lemma sample_tape_two : @simulate spec_float Binary64.arith ages 2 sample_tape
                        = Ok sample_midstate.
Proof. vm_compute. reflexivity. Qed.

Lemma sample_tape_four : @simulate spec_float Binary64.arith ages 4 sample_tape
                         = Ok sample_state.
Proof. vm_compute. reflexivity. Qed.

Lemma counters_never_decrease_witness :
  (totalPurchases sample_midstate <= totalPurchases sample_state
     <= totalPurchases sample_midstate + Z.of_nat (4 - 2))%Z /\
  forall L : Z, L ∈ ages ->
    exists t t' p p' : Z,
      totals sample_midstate !! L = Some t /\
      totals sample_state !! L = Some t' /\
      purchases sample_midstate !! L = Some p /\
      purchases sample_state !! L = Some p' /\
      (t <= t' <= t + Z.of_nat (4 - 2))%Z /\ (0 <= p' - p <= t' - t)%Z.
Proof.
  apply (@counters_never_decrease spec_float Binary64.arith ages sample_tape 2 4);
    [lia | exact sample_tape_two | exact sample_tape_four].
Defined.

(** ** The derived probabilities on the states the loop reaches *)

Section MoreProbabilities.
Context {T : Type} `{Arith T}.
Local Open Scope R_scope.

Lemma ratio_in_unit_interval (p t : Z) :
  (0 <= p <= t)%Z -> (0 < t)%Z -> 0 <= IZR p / IZR t <= 1.
Proof.
  intros Hp Ht.
  assert (HT : 0 < IZR t) by (apply (IZR_lt 0); exact Ht).
  assert (HP : 0 <= IZR p <= IZR t) by (split; apply IZR_le; lia).
  split.
  - unfold Rdiv. apply Rmult_le_pos; [lra |].
    left. apply Rinv_0_lt_compat. exact HT.
  - apply (Rmult_le_reg_r (IZR t)); [exact HT |].
    replace (IZR p / IZR t * IZR t) with (IZR p) by (field; lra). lra.
Qed.

Lemma PE_exact (st : state) (n : nat) :
  n <> 0%nat -> @PE R exact st n = Ok (IZR (totalPurchases st) / INR n).
Proof.
  intros Hn. unfold PE. simpl. rewrite <- INR_IZR_INZ.
  apply Rdiv_checked_ok, not_0_INR, Hn.
Qed.

(** X11. After a run of [N] iterations [totalPurchases] lies between 0
    and [N], so the overall probability [PE] is a number of [[0, 1]];
    with [N = 0] computing [PE] divides by zero. *)
Theorem purchase_aggregate_range (labels : list Z) (rng : tape) (N : nat)
    (st : state) :
  simulate labels N rng = Ok st ->
  (0 <= totalPurchases st <= Z.of_nat N)%Z /\
  (N <> 0%nat ->
   @PE R exact st N = Ok (IZR (totalPurchases st) / INR N) /\
   0 <= IZR (totalPurchases st) / INR N <= 1) /\
  (N = 0%nat -> @PE R exact st N = Raise ZeroDivisionError).
Proof.
  intros Hrun.
  destruct (run_growth labels rng 0 N (initial labels) st
              (initial_invariant labels) Hrun) as [Htp _].
  simpl in Htp. split; [lia |]. split.
  - intros HN. split; [apply PE_exact, HN |].
    rewrite INR_IZR_INZ. apply ratio_in_unit_interval; lia.
  - intros ->. unfold PE. simpl. apply Rdiv_checked_zero.
Qed.

(** X12. On the state a run ends in, [PEF] for a value that is not a
    label raises [KeyError]; for a label it divides by zero exactly when
    no individual drew the label, and otherwise returns
    [purchases[L] / totals[L]], a number of [[0, 1]]. *)
Theorem PEF_outcomes (labels : list Z) (rng : tape) (N : nat) (st : state)
    (L : Z) :
  simulate labels N rng = Ok st ->
  (L ∉ labels -> @PEF R exact st L = Raise (KeyError L)) /\
  (L ∈ labels ->
   exists p t : Z,
     purchases st !! L = Some p /\ totals st !! L = Some t /\
     (0 <= p <= t)%Z /\
     ((t = 0%Z /\ @PEF R exact st L = Raise ZeroDivisionError) \/
      ((0 < t)%Z /\ @PEF R exact st L = Ok (IZR p / IZR t) /\
       0 <= IZR p / IZR t <= 1))).
Proof.
  intros Hrun.
  destruct (simulate_Ok_invariant labels rng N st Hrun)
    as (Hdt & Hdp & Hle & _).
  split.
  - intros HL. unfold PEF.
    rewrite (dict_get_None (purchases st) L); [reflexivity |].
    apply not_elem_of_dom. rewrite Hdp. apply not_elem_of_list_to_set, HL.
  - intros HL.
    assert (Hts : is_Some (totals st !! L))
      by (apply elem_of_dom; rewrite Hdt; apply elem_of_list_to_set, HL).
    assert (Hps : is_Some (purchases st !! L))
      by (apply elem_of_dom; rewrite Hdp; apply elem_of_list_to_set, HL).
    destruct Hts as [t Ht], Hps as [p Hp].
    pose proof (Hle L p t Hp Ht) as Hpt.
    exists p, t. repeat apply conj; try assumption; try lia.
    destruct (Z.eq_dec t 0%Z) as [-> | Hnz].
    + left. split; [reflexivity |]. apply (PEF_zero_tally st L p); assumption.
    + right. split; [lia |]. split.
      * apply PEF_exact; assumption.
      * apply ratio_in_unit_interval; lia.
Qed.

(** X14. For a label with a non-zero tally and a non-zero population, the
    joint probability is the conditional probability times the marginal
    one, and it equals the product [PE * PF] of the marginals exactly
    when the conditional probability [PEF] equals [PE]. *)
Theorem chain_rule (st : state) (L p t : Z) (n : nat) :
  purchases st !! L = Some p -> totals st !! L = Some t ->
  t <> 0%Z -> n <> 0%nat ->
  exists e f q j : R,
    @PEF R exact st L = Ok e /\ @PF R exact st L n = Ok f /\
    @PE R exact st n = Ok q /\ @joint R exact st L n = Ok j /\
    @product_of_marginals R exact st L n = Ok (q * f) /\
    j = e * f /\
    (j = q * f <-> e = q).
Proof.
  intros Hp Ht Hnz Hn.
  assert (HT : IZR t <> 0) by (intros Hz; apply eq_IZR_R0 in Hz; contradiction).
  assert (HN : INR n <> 0) by (apply not_0_INR; exact Hn).
  exists (IZR p / IZR t), (IZR t / INR n),
         (IZR (totalPurchases st) / INR n), (IZR p / INR n).
  repeat apply conj.
  - apply PEF_exact; assumption.
  - apply PF_exact; assumption.
  - apply PE_exact; assumption.
  - apply joint_exact; assumption.
  - unfold product_of_marginals.
    rewrite (PF_exact st L t n Ht Hn), bind_Ok, (PE_exact st n Hn), bind_Ok.
    reflexivity.
  - field. split; assumption.
  - intros Hj.
    apply (f_equal (fun v => v * INR n / IZR t)) in Hj.
    field_simplify in Hj; [| split; assumption | split; assumption].
    unfold Rdiv in *. lra.
  - intros He.
    rewrite <- He. field. split; assumption.
Qed.

Lemma foldr_sum_ext (f g : Z -> Z) (l : list Z) :
  (forall K : Z, K ∈ l -> f K = g K) ->
  foldr (fun K acc => (f K + acc)%Z) 0%Z l
  = foldr (fun K acc => (g K + acc)%Z) 0%Z l.
Proof.
  induction l as [|K l IH]; intros Hfg; [reflexivity |].
  simpl. rewrite (Hfg K) by set_solver.
  rewrite IH by (intros K' HK'; apply Hfg; set_solver). reflexivity.
Qed.

(** The sum of a dictionary's values, label by label. *)
Lemma total_count_over_labels (labels : list Z) (d : gmap Z Z) :
  NoDup labels -> dom d = list_to_set labels ->
  total_count d
  = foldr (fun L acc => (default 0 (d !! L) + acc)%Z) 0%Z labels.
Proof.
  intros Hnd. revert d. induction Hnd as [|L l HL Hnd IH]; intros d Hdom.
  - simpl in *. rewrite (proj1 (dom_empty_iff_L d) Hdom).
    apply total_count_empty.
  - assert (Hs : is_Some (d !! L)).
    { apply elem_of_dom. rewrite Hdom.
      apply elem_of_list_to_set, elem_of_cons. left. reflexivity. }
    destruct Hs as [v Hv]. simpl. rewrite Hv. simpl.
    rewrite <- (insert_delete_id d L v Hv) at 1.
    rewrite total_count_insert_fresh by apply lookup_delete_eq.
    f_equal. rewrite (IH (delete L d)).
    + apply (foldr_sum_ext (fun K => default 0%Z (delete L d !! K))
                           (fun K => default 0%Z (d !! K))).
      intros K HK. rewrite lookup_delete_ne; [reflexivity |].
      intros ->. contradiction.
    + rewrite dom_delete_L, Hdom, list_to_set_cons.
      apply set_eq. intros K.
      rewrite elem_of_difference, elem_of_union, !elem_of_list_to_set,
        elem_of_singleton.
      split.
      * intros [[-> | HK] Hne]; [contradiction | exact HK].
      * intros HK. split; [right; exact HK | intros ->; contradiction].
Qed.

Lemma mapM_over_labels (f : Z -> result R) (g : Z -> R) (l : list Z) :
  (forall L : Z, L ∈ l -> f L = Ok (g L)) -> mapM f l = Ok (map g l).
Proof.
  induction l as [|L l IH]; intros Hfg; [reflexivity |].
  simpl. rewrite (Hfg L) by (apply elem_of_cons; left; reflexivity).
  rewrite bind_Ok.
  rewrite IH by (intros K HK; apply Hfg, elem_of_cons; right; exact HK).
  reflexivity.
Qed.

Lemma Rsum_fractions (g : Z -> Z) (n : R) (l : list Z) :
  Rsum (map (fun L => IZR (g L) / n) l)
  = IZR (foldr (fun L acc => (g L + acc)%Z) 0%Z l) / n.
Proof.
  induction l as [|L l IH]; simpl.
  - unfold Rdiv. ring.
  - rewrite IH, plus_IZR. unfold Rdiv. ring.
Qed.

(** X13. With distinct labels and a non-zero population, on the state a
    run ends in and with the divisions and sums done in exact arithmetic,
    the marginal probabilities [PF] of the labels add up to 1, and the
    joint probabilities of the labels add up to the overall probability
    [PE]. *)
Theorem total_probability (labels : list Z) (rng : tape) (N : nat)
    (st : state) :
  NoDup labels -> N <> 0%nat ->
  simulate labels N rng = Ok st ->
  exists fs js : list R,
    mapM (fun L => @PF R exact st L N) labels = Ok fs /\
    sum fs = 1 /\
    mapM (fun L => @joint R exact st L N) labels = Ok js /\
    @PE R exact st N = Ok (sum js).
Proof.
  intros Hnd HN Hrun.
  destruct (simulate_Ok_invariant labels rng N st Hrun)
    as (Hdt & Hdp & _ & Hsum & Hbuy).
  assert (HNr : INR N <> 0) by (apply not_0_INR; exact HN).
  exists (map (fun L => IZR (default 0%Z (totals st !! L)) / INR N) labels),
         (map (fun L => IZR (default 0%Z (purchases st !! L)) / INR N) labels).
  repeat apply conj.
  - apply mapM_over_labels. intros L HL.
    assert (Hts : is_Some (totals st !! L))
      by (apply elem_of_dom; rewrite Hdt; apply elem_of_list_to_set, HL).
    destruct Hts as [t Ht]. rewrite Ht. simpl.
    apply PF_exact; assumption.
  - rewrite sum_exact, Rsum_fractions.
    rewrite <- (total_count_over_labels labels (totals st) Hnd Hdt), Hsum.
    rewrite <- INR_IZR_INZ. field. exact HNr.
  - apply mapM_over_labels. intros L HL.
    assert (Hps : is_Some (purchases st !! L))
      by (apply elem_of_dom; rewrite Hdp; apply elem_of_list_to_set, HL).
    destruct Hps as [p Hp]. rewrite Hp. simpl.
    apply joint_exact; assumption.
  - rewrite sum_exact, Rsum_fractions.
    rewrite <- (total_count_over_labels labels (purchases st) Hnd Hdp), Hbuy.
    apply PE_exact, HN.
Qed.

End MoreProbabilities.

Lemma NoDup_ages : NoDup ages.
Proof. apply (bool_decide_unpack _). vm_compute. reflexivity. Qed.

Section ProbabilityWitnesses.
Local Open Scope R_scope.

Lemma purchase_aggregate_range_witness :
  (0 <= totalPurchases sample_state <= Z.of_nat 4)%Z /\
  (4%nat <> 0%nat ->
   @PE R exact sample_state 4 = Ok (IZR (totalPurchases sample_state) / INR 4) /\
   (0 <= IZR (totalPurchases sample_state) / INR 4 <= 1)%R) /\
  (4%nat = 0%nat -> @PE R exact sample_state 4 = Raise ZeroDivisionError).
Proof.
  apply (@purchase_aggregate_range spec_float Binary64.arith ages sample_tape 4).
  exact sample_tape_four.
Defined.

Lemma PEF_outcomes_witness :
  (20%Z ∉ ages -> @PEF R exact sample_state 20%Z = Raise (KeyError 20%Z)) /\
  (20%Z ∈ ages ->
   exists p t : Z,
     purchases sample_state !! 20%Z = Some p /\
     totals sample_state !! 20%Z = Some t /\
     (0 <= p <= t)%Z /\
     ((t = 0%Z /\ @PEF R exact sample_state 20%Z = Raise ZeroDivisionError) \/
      ((0 < t)%Z /\ @PEF R exact sample_state 20%Z = Ok (IZR p / IZR t)%R /\
       (0 <= IZR p / IZR t <= 1)%R))).
Proof.
  apply (@PEF_outcomes spec_float Binary64.arith ages sample_tape 4).
  exact sample_tape_four.
Defined.

Lemma chain_rule_witness :
  exists e f q j : R,
    @PEF R exact sample_state 30%Z = Ok e /\
    @PF R exact sample_state 30%Z 4 = Ok f /\
    @PE R exact sample_state 4 = Ok q /\
    @joint R exact sample_state 30%Z 4 = Ok j /\
    @product_of_marginals R exact sample_state 30%Z 4 = Ok (q * f)%R /\
    j = (e * f)%R /\
    (j = (q * f)%R <-> e = q).
Proof.
  apply (chain_rule sample_state 30%Z 1%Z 2%Z 4);
    [vm_compute; reflexivity | vm_compute; reflexivity | lia | lia].
Defined.

Lemma total_probability_witness :
  exists fs js : list R,
    mapM (fun L => @PF R exact sample_state L 4) ages = Ok fs /\
    sum fs = 1%R /\
    mapM (fun L => @joint R exact sample_state L 4) ages = Ok js /\
    @PE R exact sample_state 4 = Ok (sum js).
Proof.
  apply (@total_probability spec_float Binary64.arith ages sample_tape 4);
    [exact NoDup_ages | lia | exact sample_tape_four].
Defined.

End ProbabilityWitnesses.

(** ** The threshold at its extremes *)

Section Extremes.
Local Open Scope R_scope.

Lemma exact_probability (label : Z) (prob : R) :
  @fdiv R exact (of_int label) (of_int 100%Z) = Ok prob ->
  prob = IZR label / 100.
Proof. rewrite exact_percent. intros [= <-]. reflexivity. Qed.

Lemma always_below (label w : Z) :
  (100 <= label)%Z ->
  @flt R exact (random_sample w) (IZR label / 100) = true.
Proof.
  intros Hl. apply exact_flt.
  pose proof (exact_random_sample_range w) as [_ Hu].
  apply IZR_le in Hl. lra.
Qed.

Lemma never_below (label w : Z) :
  (label <= 0)%Z ->
  @flt R exact (random_sample w) (IZR label / 100) = false.
Proof.
  intros Hl. destruct (@flt R exact (random_sample w) (IZR label / 100)) eqn:E;
    [| reflexivity].
  apply exact_flt in E.
  pose proof (exact_random_sample_range w) as [Hu _].
  apply IZR_le in Hl. lra.
Qed.

(** X15. The purchase test at its extremes, in exact arithmetic: when
    every label is at least 100 every individual purchases, so
    [purchases] equals [totals] and [totalPurchases] is [N]; when no
    label is positive nobody purchases, so [purchases] stays all zero. *)
Theorem certain_and_impossible_purchases (labels : list Z) (rng : tape)
    (N : nat) :
  labels <> [] ->
  exists st : state,
    @simulate R exact labels N rng = Ok st /\
    ((forall L : Z, L ∈ labels -> (100 <= L)%Z) ->
     purchases st = totals st /\ totalPurchases st = Z.of_nat N) /\
    ((forall L : Z, L ∈ labels -> (L <= 0)%Z) ->
     purchases st = zero_counts labels /\ totalPurchases st = 0%Z).
Proof.
  intros Hl.
  destruct (simulate_prefix exact_percent_defined labels rng N N Hl (le_n N))
    as (st & _ & Hrun & _).
  exists st. split; [exact Hrun |]. split.
  - intros Hbig.
    apply (@simulate_Ok_induction R exact labels rng
             (fun k s => purchases s = totals s
                         /\ totalPurchases s = Z.of_nat k) N st);
      [split; reflexivity | | exact Hrun].
    intros k s s' _ [Heq Htp]
           (label & prob & _ & Hin & Hp & _ & _ & _ & Htot & Hpur & Hagg).
    apply exact_probability in Hp. subst prob.
    rewrite (always_below label _ (Hbig label Hin)) in Hpur, Hagg.
    split; [| rewrite Hagg, Htp; lia].
    apply map_eq. intros K. rewrite Hpur, Htot, Heq. simpl.
    destruct (decide (K = label)) as [-> | Hne].
    + rewrite bool_decide_eq_true_2 by reflexivity. reflexivity.
    + rewrite bool_decide_eq_false_2 by exact Hne. reflexivity.
  - intros Hsmall.
    apply (@simulate_Ok_induction R exact labels rng
             (fun k s => purchases s = zero_counts labels
                         /\ totalPurchases s = 0%Z) N st);
      [split; reflexivity | | exact Hrun].
    intros k s s' _ [Heq Htp]
           (label & prob & _ & Hin & Hp & _ & _ & _ & _ & Hpur & Hagg).
    apply exact_probability in Hp. subst prob.
    rewrite (never_below label _ (Hsmall label Hin)) in Hpur, Hagg.
    split; [| rewrite Hagg; exact Htp].
    rewrite <- Heq. apply map_eq. intros K. rewrite Hpur. reflexivity.
Qed.

Lemma certain_and_impossible_purchases_witness :
  exists st : state,
    @simulate R exact [100; 250]%Z 3 sample_tape = Ok st /\
    ((forall L : Z, L ∈ [100; 250]%Z -> (100 <= L)%Z) ->
     purchases st = totals st /\ totalPurchases st = Z.of_nat 3) /\
    ((forall L : Z, L ∈ [100; 250]%Z -> (L <= 0)%Z) ->
     purchases st = zero_counts [100; 250]%Z /\ totalPurchases st = 0%Z).
Proof.
  apply (certain_and_impossible_purchases [100; 250]%Z sample_tape 3).
  discriminate.
Defined.

End Extremes.

(** ** Affine changes of units *)

Section Units.
Local Open Scope R_scope.

(** X16. [de_mean] forgets a shift and follows a scale: the de-meaned
    [a * x + b] is [a] times the de-meaned [x]; and the standard
    deviation of [a * x + b] is [|a|] times that of [x]. *)
Theorem de_mean_std_affine (x : list R) (a b : R) :
  x <> [] ->
  exists (dx : list R) (s : R),
    de_mean x = Ok dx /\ std x = Ok s /\
    de_mean (affine a b x) = Ok (map (Rmult a) dx) /\
    std (affine a b x) = Ok (Rabs a * s).
Proof.
  intros Hx.
  assert (Hax : affine a b x <> []).
  { apply nonempty_length. rewrite length_affine. apply nonempty_length, Hx. }
  exists (deviations x), (sqrt (Sxy x x / INR (length x))).
  repeat apply conj.
  - apply de_mean_exact, Hx.
  - apply std_exact, Hx.
  - rewrite (de_mean_exact _ Hax). f_equal. apply deviations_affine, Hx.
  - rewrite (std_exact _ Hax). f_equal. apply std_value_affine, Hx.
Qed.

Lemma de_mean_std_affine_witness :
  exists (dx : list R) (s : R),
    de_mean [1; 2; 6] = Ok dx /\ std [1; 2; 6] = Ok s /\
    de_mean (affine (-2) 5 [1; 2; 6]) = Ok (map (Rmult (-2)) dx) /\
    std (affine (-2) 5 [1; 2; 6]) = Ok (Rabs (-2) * s).
Proof. apply (de_mean_std_affine [1; 2; 6] (-2) 5). discriminate. Defined.

(** X17. An exact linear relation [y = a * x + b] with [a <> 0] and a
    non-constant [x] of length [n] gives the correlation [n / (n - 1)]
    for [a > 0] and [- n / (n - 1)] for [a < 0]: the largest magnitude
    [correlation] can return. *)
Theorem correlation_of_linear_relation (x : list R) (a b : R) :
  (2 <= length x)%nat -> ~ constant x ->
  (0 < a ->
   correlation x (affine a b x)
   = Ok (INR (length x) / (INR (length x) - 1))) /\
  (a < 0 ->
   correlation x (affine a b x)
   = Ok (- (INR (length x) / (INR (length x) - 1)))).
Proof.
  intros Hn Hc. split; intros Ha.
  - rewrite correlation_of_affine_image by (assumption || lra).
    rewrite sign_pos by exact Ha. f_equal. ring.
  - rewrite correlation_of_affine_image by (assumption || lra).
    rewrite sign_neg by exact Ha. f_equal. ring.
Qed.

Lemma correlation_of_linear_relation_witness :
  (0 < 7 ->
   correlation [1; 2; 4] (affine 7 (-1) [1; 2; 4])
   = Ok (INR (length [1; 2; 4]) / (INR (length [1; 2; 4]) - 1))) /\
  (7 < 0 ->
   correlation [1; 2; 4] (affine 7 (-1) [1; 2; 4])
   = Ok (- (INR (length [1; 2; 4]) / (INR (length [1; 2; 4]) - 1)))).
Proof.
  apply (correlation_of_linear_relation [1; 2; 4] 7 (-1));
    [simpl; lia | apply two_nonconstant; lra].
Defined.

End Units.
